(** * NewsCrawler (src/main.py): a shallow embedding and its properties

    The crawler is a single Python class.  Its state (queue, visited set,
    collected articles, the output file) is threaded explicitly through the
    methods; sets are [gset string], the article list is a [list], the parsed
    page is a small tree of tags and strings.  Text is kept as byte strings
    (UTF-8), which is exact for every comparison the code makes against its
    ASCII constants. *)

From Stdlib Require Import Ascii String.
From stdpp Require Import gmap strings list pretty.

Set Warnings "-clear-no-such-hyp".

Local Open Scope string_scope.
Local Open Scope list_scope.
Local Open Scope nat_scope.

(** ** Python string operations used by the crawler *)

Module Py.

(** [needle in hay] for [str]. *)
Fixpoint contains (needle hay : string) : bool :=
  if String.prefix needle hay then true
  else match hay with
       | "" => false
       | String _ rest => contains needle rest
       end.

(** [s.endswith(suffix)]. *)
Definition endswith (s suffix : string) : bool :=
  String.prefix (String.rev suffix) (String.rev s).

Definition lower_char (c : ascii) : ascii :=
  let n := Ascii.N_of_ascii c in
  if ((65 <=? n) && (n <=? 90))%N then Ascii.ascii_of_N (n + 32) else c.

(** [s.lower()], on the ASCII letters. *)
Fixpoint lower (s : string) : string :=
  match s with
  | "" => ""
  | String c rest => String (lower_char c) (lower rest)
  end.

(** [s.replace(c, by)] for a one-character pattern. *)
Fixpoint replace_char (c : ascii) (by_ : string) (s : string) : string :=
  match s with
  | "" => ""
  | String a rest =>
      if Ascii.eqb a c then by_ +:+ replace_char c by_ rest
      else String a (replace_char c by_ rest)
  end.

Fixpoint filter (p : ascii → bool) (s : string) : string :=
  match s with
  | "" => ""
  | String a rest => if p a then String a (filter p rest) else filter p rest
  end.

(** An ASCII digit. *)
Definition isdigit (c : ascii) : bool :=
  let n := Ascii.N_of_ascii c in ((48 <=? n) && (n <=? 57))%N.

Definition isalpha (c : ascii) : bool :=
  let n := Ascii.N_of_ascii c in
  (((65 <=? n) && (n <=? 90)) || ((97 <=? n) && (n <=? 122)))%N.

(** Whitespace removed by [str.strip()] (the ASCII part of it). *)
Definition isspace (c : ascii) : bool :=
  let n := Ascii.N_of_ascii c in
  (((9 <=? n) && (n <=? 13)) || ((28 <=? n) && (n <=? 32)))%N.

Fixpoint lstrip (s : string) : string :=
  match s with
  | "" => ""
  | String a rest => if isspace a then lstrip rest else s
  end.

Definition strip (s : string) : string :=
  String.rev (lstrip (String.rev (lstrip s))).

(** [sep.join(parts)]. *)
Fixpoint join (sep : string) (parts : list string) : string :=
  match parts with
  | [] => ""
  | [p] => p
  | p :: ps => p +:+ sep +:+ join sep ps
  end.

(** The longest prefix of [s] without a character satisfying [p], and the
    rest (which starts at the first such character, when there is one). *)
Fixpoint break (p : ascii → bool) (s : string) : string * string :=
  match s with
  | "" => ("", "")
  | String a rest =>
      if p a then ("", s)
      else let '(l, r) := break p rest in (String a l, r)
  end.

Fixpoint all (p : ascii → bool) (s : string) : bool :=
  match s with
  | "" => true
  | String a rest => p a && all p rest
  end.

(** [int(s)] on ASCII text, for a string without sign, blanks or
    underscores; [None] is [ValueError], raised on the empty string, on
    anything that is not a digit, and on more than 4300 digits. *)
Fixpoint int_digits (acc : N) (s : string) : N :=
  match s with
  | "" => acc
  | String a rest => int_digits (acc * 10 + (Ascii.N_of_ascii a - 48))%N rest
  end.

Definition max_str_digits : nat := 4300.

Definition int (s : string) : option N :=
  match s with
  | "" => None
  | _ =>
      if all isdigit s && (String.length s <=? max_str_digits)
      then Some (int_digits 0 s) else None
  end.

(** [a or b] where both sides are [str] or [None]: the first truthy
    operand, else the last one. *)
Definition or_ (a b : option string) : option string :=
  match a with
  | Some "" | None => b
  | Some _ => a
  end.

End Py.

(** ** urllib.parse

  [urlparse] as far as the crawler looks at it: the scheme is cut at the
  first colon when what precedes it is a scheme name, the network location
  runs from the double slash to the first of [/ ? #], the path ends at the
  first [?] or [#] and, for the schemes that have parameters, loses what
  follows the first [;] of its last segment.  The host name is the network
  location after its last [@] and before its port, in lower case.
  (Bracket validation, the brackets of IPv6 literals and the removal of
  control characters are left out.) *)

Module Url.

Definition scheme_char (c : ascii) : bool :=
  Py.isalpha c || Py.isdigit c ||
  Ascii.eqb c "+" || Ascii.eqb c "-" || Ascii.eqb c ".".

Definition is_delim (c : ascii) : bool :=
  Ascii.eqb c "/" || Ascii.eqb c "?" || Ascii.eqb c "#".

(** The URL with its scheme and colon removed, when it has one. *)
Definition after_scheme (url : string) : string :=
  match Py.break (Ascii.eqb ":") url with
  | (String c0 pre, String _ rest) =>
      if Py.isalpha c0 && Py.all scheme_char pre then rest else url
  | _ => url
  end.

(** Network location and what follows it. *)
Definition splitnetloc (url : string) : string * string :=
  match after_scheme url with
  | String "/" (String "/" rest) => Py.break is_delim rest
  | rest => ("", rest)
  end.

(** [urlparse(url).netloc] *)
Definition netloc (url : string) : string := (splitnetloc url).1.

(** [urlparse(url).scheme] *)
Definition scheme (url : string) : string :=
  match Py.break (Ascii.eqb ":") url with
  | (String c0 pre, String _ _) =>
      if Py.isalpha c0 && Py.all scheme_char pre then Py.lower (String c0 pre)
      else ""
  | _ => ""
  end.

Definition uses_params : list string :=
  [""; "ftp"; "hdl"; "prospero"; "http"; "imap"; "https"; "shttp"; "rtsp";
   "rtspu"; "sip"; "sips"; "mms"; "sftp"; "tel"].

Fixpoint has_char (c : ascii) (s : string) : bool :=
  match s with
  | "" => false
  | String a rest => Ascii.eqb a c || has_char c rest
  end.

(** [_splitparams]: the path up to the first [;] of its last segment. *)
Fixpoint without_params (p : string) : string :=
  match p with
  | "" => ""
  | String a rest =>
      if has_char "/" rest then String a (without_params rest)
      else if Ascii.eqb a ";" then ""
      else String a (without_params rest)
  end.

(** [urlparse(url).path] *)
Definition path (url : string) : string :=
  let p := (Py.break (λ c, Ascii.eqb c "?" || Ascii.eqb c "#") (splitnetloc url).2).1 in
  if bool_decide (scheme url ∈ uses_params) then without_params p else p.

(** [s.rpartition(c)[2]] *)
Fixpoint after_last (c : ascii) (s : string) : string :=
  match s with
  | "" => ""
  | String a rest =>
      if has_char c rest then after_last c rest
      else if Ascii.eqb a c then rest else s
  end.

(** [urlparse(url).hostname], the empty string standing for [None]. *)
Definition hostname (url : string) : string :=
  Py.lower (Py.break (Ascii.eqb ":") (after_last "@" (netloc url))).1.

End Url.

(** ** URL classifier: [NewsCrawler.is_valid_article_url] *)

Definition valid_domains : list string := ["novinky.cz"; "idnes.cz"; "ctk.cz"].

Definition file_extensions : list string :=
  [".jpg"; ".jpeg"; ".png"; ".gif"; ".pdf"; ".mp4"].

(** The patterns are plain text, so [re.search(pattern, url)] is a substring
    search. *)
Definition article_patterns : list (string * string) :=
  [("novinky.cz", "/clanek/"); ("idnes.cz", "/zpravy/"); ("ctk.cz", "/clanek/")].

Definition is_valid_article_url (url : string) : bool :=
  let netloc := Url.netloc url in
  let domain_match := existsb (λ domain, Py.contains domain netloc) valid_domains in
  let is_file := existsb (λ ext, Py.endswith (Py.lower url) ext) file_extensions in
  let is_article :=
    existsb (λ '(site, pattern), Py.contains pattern url)
            (List.filter (λ '(site, _), Py.contains site netloc) article_patterns) in
  domain_match && is_article && negb is_file.

(** ** Exceptions *)

Inductive exn :=
  | AttributeError
  | ValueError
  | RequestException
  | KeyboardInterrupt
  | OtherError (what : string).

Inductive result (A : Type) :=
  | Ok (a : A)
  | Raise (e : exn).
Arguments Ok {A} a.
Arguments Raise {A} e.

Global Instance result_ret : MRet result := λ A a, Ok a.

Global Instance result_bind : MBind result := λ A B k r,
  match r with
  | Ok a => k a
  | Raise e => Raise e
  end.

(** ** The parsed page (BeautifulSoup tree) *)

#[warnings="-register-all"] Inductive node :=
  | NavigableString (text : string)
  | Tag (name : string) (attrs : gmap string string) (contents : list node).

(** The soup object itself is the list of top-level nodes. *)
Abbreviation soup := (list node).

(** [tag.descendants]: every node below, in document order. *)
Fixpoint descendants (n : node) : list node :=
  match n with
  | NavigableString _ => []
  | Tag _ _ contents =>
      (fix below (l : list node) : list node :=
         match l with
         | [] => []
         | c :: l' => c :: descendants c ++ below l'
         end) contents
  end.

Definition soup_descendants (s : soup) : list node :=
  flat_map (λ c, c :: descendants c) s.

(** [tag.get(key)] *)
Definition get (n : node) (key : string) : option string :=
  match n with
  | Tag _ attrs _ => attrs !! key
  | NavigableString _ => None
  end.

(** The CSS selectors the crawler uses: [tag], [tag.class], [tag[attr]] and
    [tag[attr="value"]]. *)
Inductive selector :=
  | css_tag (name : string)
  | css_class (name cls : string)
  | css_has_attr (name attr : string)
  | css_attr_eq (name attr value : string).

Definition has_class (cls : string) (attrs : gmap string string) : bool :=
  match attrs !! "class" with
  | Some v => bool_decide (cls ∈ String.words v)
  | None => false
  end.

Definition matches (sel : selector) (n : node) : bool :=
  match n with
  | NavigableString _ => false
  | Tag name attrs _ =>
      match sel with
      | css_tag t => String.eqb name t
      | css_class t cls => String.eqb name t && has_class cls attrs
      | css_has_attr t a => String.eqb name t && bool_decide (is_Some (attrs !! a))
      | css_attr_eq t a v => String.eqb name t && bool_decide (attrs !! a = Some v)
      end
  end.

(** [soup.select_one(selector)]: the first match in document order. *)
Definition select_one (s : soup) (sel : selector) : option node :=
  head (List.filter (matches sel) (soup_descendants s)).

(** [soup.find_all(name)] *)
Definition find_all (s : soup) (name : string) : list node :=
  List.filter (matches (css_tag name)) (soup_descendants s).

(** The strings below a tag, stripped, the empty ones dropped. *)
Definition stripped_strings (n : node) : list string :=
  flat_map (λ d, match d with
                 | NavigableString t =>
                     match Py.strip t with "" => [] | t' => [t'] end
                 | Tag _ _ _ => []
                 end) (descendants n).

(** [tag.get_text(separator, strip=True)] *)
Definition get_text (separator : string) (n : node) : string :=
  Py.join separator (stripped_strings n).

(** ** Library functions outside the repository

    [urljoin], the ISO date parser, the removal of non-digits and the
    reading of an integer are taken as given: [fromisoformat s] is
    [datetime.fromisoformat(s).isoformat()], [sub_nondigits s] is
    [re.sub(r'\D', '', s)] and [parse_int s] is [int(s)]; [None] stands for
    [ValueError]. *)

Class Lib := {
  urljoin : string → string → string;
  fromisoformat : string → option string;
  sub_nondigits : string → string;
  parse_int : string → option N;
}.

(** ** Extraction pipeline *)

Record article := {
  url : string;
  title : string;
  category : string;
  comments_count : N;
  images_count : nat;
  content : string;
  created_at : string;
  source_website : string;
}.

Definition title_selectors : list selector :=
  [css_class "h1" "article-title"; css_class "h1" "title"; css_tag "h1"; css_tag "title"].

Definition title_not_found : string := "Nepodařilo se najít nadpis".

Fixpoint extract_title_from (selectors : list selector) (s : soup) : string :=
  match selectors with
  | [] => title_not_found
  | sel :: rest =>
      match select_one s sel with
      | Some title_elem => get_text "" title_elem
      | None => extract_title_from rest s
      end
  end.

Definition extract_title (s : soup) : string :=
  extract_title_from title_selectors s.

Definition category_selectors : list selector :=
  [css_class "span" "category"; css_class "div" "rubrika";
   css_attr_eq "meta" "property" "article:section"].

Definition category_not_found : string := "Kategorie nenalezena".

Fixpoint extract_category_from (selectors : list selector) (s : soup) : string :=
  match selectors with
  | [] => category_not_found
  | sel :: rest =>
      match select_one s sel with
      | Some category_elem =>
          match get category_elem "content" with
          | Some (String _ _ as c) => c
          | _ => get_text "" category_elem
          end
      | None => extract_category_from rest s
      end
  end.

Definition extract_category (s : soup) : string :=
  extract_category_from category_selectors s.

Definition comments_selectors : list selector :=
  [css_class "span" "comments-count"; css_class "div" "comments-count";
   css_attr_eq "meta" "itemprop" "commentCount"].

Fixpoint extract_comments_count_from {L : Lib} (selectors : list selector)
    (s : soup) : N :=
  match selectors with
  | [] => 0%N
  | sel :: rest =>
      match select_one s sel with
      | Some comments_elem =>
          let text := default (get_text "" comments_elem) (get comments_elem "content") in
          match parse_int (sub_nondigits text) with
          | Some n => n
          | None => extract_comments_count_from rest s
          end
      | None => extract_comments_count_from rest s
      end
  end.

Definition extract_comments_count {L : Lib} (s : soup) : N :=
  extract_comments_count_from comments_selectors s.

Definition content_selectors : list selector :=
  [css_class "div" "article-content"; css_class "div" "content";
   css_tag "article"; css_class "div" "text"].

Definition content_not_found : string := "Obsah nenalezen".

Fixpoint extract_content_from (selectors : list selector) (s : soup) : string :=
  match selectors with
  | [] => content_not_found
  | sel :: rest =>
      match select_one s sel with
      | Some content_elem => get_text " " content_elem
      | None => extract_content_from rest s
      end
  end.

Definition extract_content (s : soup) : string :=
  extract_content_from content_selectors s.

Definition date_selectors : list selector :=
  [css_attr_eq "meta" "property" "article:published_time";
   css_has_attr "time" "datetime";
   css_attr_eq "meta" "name" "date"].

(** [now] is what [datetime.now().isoformat()] answers.  [date_str] is
    [None] when the element has neither attribute (or an empty [content]
    and no [datetime]); calling [.replace] on it is the [AttributeError],
    which the [except (ValueError, TypeError)] clause lets through. *)
Fixpoint extract_date_from {L : Lib} (selectors : list selector) (now : string)
    (s : soup) : result string :=
  match selectors with
  | [] => Ok now
  | sel :: rest =>
      match select_one s sel with
      | Some date_elem =>
          let date_str := Py.or_ (get date_elem "content") (get date_elem "datetime") in
          match date_str with
          | None => Raise AttributeError
          | Some d =>
              match fromisoformat (Py.replace_char "Z" "+00:00" d) with
              | Some iso => Ok iso
              | None => extract_date_from rest now s
              end
          end
      | None => extract_date_from rest now s
      end
  end.

Definition extract_date {L : Lib} (now : string) (s : soup) : result string :=
  extract_date_from date_selectors now s.

Definition extract_article_data {L : Lib} (now : string) (u : string) (s : soup)
    : result article :=
  let title := extract_title s in
  let category := extract_category s in
  let comments := extract_comments_count s in
  let images := length (find_all s "img") in
  let content := extract_content s in
  created ← extract_date now s;
  mret {| url := u; title := title; category := category;
        comments_count := comments; images_count := images;
        content := content; created_at := created;
        source_website := Url.netloc u |}.

(** [NewsCrawler.extract_links] *)
Definition extract_links {L : Lib} (s : soup) (base_url : string) : gset string :=
  list_to_set
    (List.filter is_valid_article_url
       (omap (λ link, urljoin base_url <$> get link "href") (find_all s "a"))).

(** ** json.dump(articles, f, ensure_ascii=False, indent=2) *)

Module Json.

Definition hex_digit (n : N) : ascii :=
  if (n <? 10)%N then Ascii.ascii_of_N (48 + n) else Ascii.ascii_of_N (87 + n).

Definition quote : ascii := Ascii.ascii_of_N 34.

Definition escape_char (c : ascii) : string :=
  let n := Ascii.N_of_ascii c in
  if Ascii.eqb c quote then String "\" (String quote "")
  else if Ascii.eqb c "\" then "\\"
  else if (n =? 8)%N then "\b"
  else if (n =? 12)%N then "\f"
  else if (n =? 10)%N then "\n"
  else if (n =? 13)%N then "\r"
  else if (n =? 9)%N then "\t"
  else if (n <? 32)%N then
    "\u00" +:+ String (hex_digit (n / 16)) (String (hex_digit (n mod 16)) "")
  else String c "".

Fixpoint escape (s : string) : string :=
  match s with
  | "" => ""
  | String c rest => escape_char c +:+ escape rest
  end.

Definition str (s : string) : string :=
  String quote (escape s) +:+ String quote "".

Definition newline : string := String (Ascii.ascii_of_N 10) "".

Definition member (key value : string) : string :=
  "    " +:+ str key +:+ ": " +:+ value.

Definition object (a : article) : string :=
  "{" +:+ newline +:+
  Py.join ("," +:+ newline)
    [member "url" (str (url a));
     member "title" (str (title a));
     member "category" (str (category a));
     member "comments_count" (pretty (comments_count a));
     member "images_count" (pretty (images_count a));
     member "content" (str (content a));
     member "created_at" (str (created_at a));
     member "source_website" (str (source_website a))]
  +:+ newline +:+ "  }".

Definition dumps (articles : list article) : string :=
  match articles with
  | [] => "[]"
  | _ =>
      "[" +:+ newline +:+
      Py.join ("," +:+ newline) ((λ a, "  " +:+ object a) <$> articles)
      +:+ newline +:+ "]"
  end.

End Json.

(** ** Files

    A file opened with mode ['r+'] must exist, is positioned at its start
    and is not truncated: writing [data] replaces the first bytes of the old
    contents and leaves what lies beyond them. *)

Fixpoint string_drop (n : nat) (s : string) : string :=
  match n, s with
  | S n', String _ rest => string_drop n' rest
  | _, _ => s
  end.

Definition write_r_plus (old data : string) : string :=
  data +:+ string_drop (String.length data) old.

(** ** The crawler object and what it does to the outside *)

Inductive response :=
  | Page (body : soup)
  | Raised (e : exn).

Inductive event :=
  | Get (u : string) (r : response)
  | LogArticle (u : string)
  | SaveJson
  | LogSaved (count : nat)
  | LogSaveError
  | LogCrawlError (u : string).

Record NewsCrawler := {
  start_urls : list string;
  visited_urls : gset string;
  queue : gset string;
  max_pages : nat;
  articles_file : option string;
  articles : list article;
  trace : list event;
}.

Definition with_queue (q : gset string) (c : NewsCrawler) : NewsCrawler :=
  {| start_urls := start_urls c; visited_urls := visited_urls c; queue := q;
     max_pages := max_pages c; articles_file := articles_file c;
     articles := articles c; trace := trace c |}.

Definition with_visited_urls (v : gset string) (c : NewsCrawler) : NewsCrawler :=
  {| start_urls := start_urls c; visited_urls := v; queue := queue c;
     max_pages := max_pages c; articles_file := articles_file c;
     articles := articles c; trace := trace c |}.

Definition with_articles (l : list article) (c : NewsCrawler) : NewsCrawler :=
  {| start_urls := start_urls c; visited_urls := visited_urls c; queue := queue c;
     max_pages := max_pages c; articles_file := articles_file c;
     articles := l; trace := trace c |}.

Definition with_articles_file (f : option string) (c : NewsCrawler) : NewsCrawler :=
  {| start_urls := start_urls c; visited_urls := visited_urls c; queue := queue c;
     max_pages := max_pages c; articles_file := f;
     articles := articles c; trace := trace c |}.

Definition emit (e : event) (c : NewsCrawler) : NewsCrawler :=
  {| start_urls := start_urls c; visited_urls := visited_urls c; queue := queue c;
     max_pages := max_pages c; articles_file := articles_file c;
     articles := articles c; trace := trace c ++ [e] |}.

(** [__init__]; [on_disk] is what the output path holds when the crawler
    starts ([None]: no such file; the constructor only creates the
    directory). *)
Definition init (start : list string) (max : nat) (on_disk : option string)
    : NewsCrawler :=
  {| start_urls := start; visited_urls := ∅; queue := list_to_set start;
     max_pages := max; articles_file := on_disk; articles := []; trace := [] |}.

(** [save_json]: the [open] fails on a missing file, and the handler logs
    that. *)
Definition save_json (c : NewsCrawler) : NewsCrawler :=
  let c := emit SaveJson c in
  match articles_file c with
  | Some old =>
      let c := with_articles_file (Some (write_r_plus old (Json.dumps (articles c)))) c in
      emit (LogSaved (length (articles c))) c
  | None => emit LogSaveError c
  end.

(** [any(article['url'] == u for article in l)] *)
Definition has_url (u : string) (l : list article) : bool :=
  existsb (λ x, String.eqb (url x) u) l.

Definition save_article (article_data : article) (c : NewsCrawler) : NewsCrawler :=
  if has_url (url article_data) (articles c) then c
  else
    let c := with_articles (articles c ++ [article_data]) c in
    let c := emit (LogArticle (url article_data)) c in
    if (length (articles c) mod 50 =? 0)%nat then save_json c else c.

(** ** The outside world

    What the crawler cannot decide: the answer of the transport to each
    request, the element [set.pop()] removes, the wall clock, and whether the
    pause between requests is cut short by an exception.  Each may depend on
    everything that happened before. *)

Record world := {
  requests_get : list event → string → response;
  pop_order : list event → list string;
  now : list event → string;
  sleep : list event → option exn;
}.

(** [set.pop()] removes an arbitrary element: here the first URL of
    [prefer] that is in the set, else the first element of the set in its
    enumeration.  The empty set raises [KeyError]. *)
Definition set_pop (prefer : list string) (q : gset string) : option string :=
  match List.filter (λ u, bool_decide (u ∈ q)) prefer with
  | u :: _ => Some u
  | [] => head (elements q)
  end.

(** The body of the [try] inside the loop, for the popped [u]. *)
Definition try_body {L : Lib} (w : world) (u : string) (c : NewsCrawler)
    : NewsCrawler * option exn :=
  let r := requests_get w (trace c) u in
  let c := emit (Get u r) c in
  match r with
  | Raised e => (c, Some e)
  | Page s =>
      match extract_article_data (now w (trace c)) u s with
      | Raise e => (c, Some e)
      | Ok article_data =>
          let c := save_article article_data c in
          let new_links := extract_links s u in
          let c := with_queue (queue c ∪ (new_links ∖ visited_urls c)) c in
          let c := with_visited_urls (visited_urls c ∪ {[u]}) c in
          (c, sleep w (trace c))
      end
  end.

(** [except requests.RequestException]: log and go on; any other exception
    passes. *)
Definition except_request_exception (u : string) (r : NewsCrawler * option exn)
    : NewsCrawler * option exn :=
  match r with
  | (c, Some RequestException) => (emit (LogCrawlError u) c, None)
  | _ => r
  end.

(** One turn of the [while] loop; the second component is the exception
    that leaves the loop, if any. *)
Definition iteration {L : Lib} (w : world) (c : NewsCrawler)
    : NewsCrawler * option exn :=
  match set_pop (pop_order w (trace c)) (queue c) with
  | None => (c, Some (OtherError "KeyError"))
  | Some u =>
      let c := with_queue (queue c ∖ {[u]}) c in
      if bool_decide (u ∈ visited_urls c) then (c, None)
      else except_request_exception u (try_body w u c)
  end.

Definition loop_guard (c : NewsCrawler) : bool :=
  bool_decide (queue c ≠ ∅) && (size (visited_urls c) <? max_pages c)%nat.

Fixpoint crawl_loop {L : Lib} (w : world) (fuel : nat) (c : NewsCrawler)
    : option (NewsCrawler * option exn) :=
  if loop_guard c then
    match fuel with
    | 0 => None
    | S fuel' =>
        match iteration w c with
        | (c', None) => crawl_loop w fuel' c'
        | (c', Some e) => Some (c', Some e)
        end
    end
  else Some (c, None).

(** [crawl]: the loop, then the [finally] clause; the exception, if any, is
    raised again after it. *)
Definition crawl {L : Lib} (w : world) (fuel : nat) (c : NewsCrawler)
    : option (NewsCrawler * option exn) :=
  match crawl_loop w fuel c with
  | Some (c', o) => Some (save_json c', o)
  | None => None
  end.

(** ** Observations on a run *)

Definition is_get (u : string) (e : event) : bool :=
  match e with
  | Get v _ => String.eqb u v
  | _ => false
  end.

Definition is_page_get (u : string) (e : event) : bool :=
  match e with
  | Get v (Page _) => String.eqb u v
  | _ => false
  end.

Definition is_save_json (e : event) : bool :=
  match e with
  | SaveJson => true
  | _ => false
  end.

(** How often the transport was asked for [u], how often it answered with a
    page, and how often [save_json] was entered. *)
Definition fetches (u : string) (t : list event) : nat :=
  length (List.filter (is_get u) t).

Definition page_fetches (u : string) (t : list event) : nat :=
  length (List.filter (is_page_get u) t).

Definition flushes (t : list event) : nat :=
  length (List.filter is_save_json t).

(** The states the loop passes through, from [c0]: the state at each test of
    the loop condition, and the state an exception leaves behind. *)
Inductive reachable {L : Lib} (w : world) (c0 : NewsCrawler)
    : NewsCrawler → option exn → Prop :=
  | reach_start : reachable w c0 c0 None
  | reach_turn c c' o :
      reachable w c0 c None →
      loop_guard c = true →
      iteration w c = (c', o) →
      reachable w c0 c' o.

(** No request in [t]. *)
Definition quiet (t : list event) : Prop := ∀ u, fetches u t = 0.

(** No address is requested again after a page was received from it. *)
Fixpoint no_refetch (t : list event) : Prop :=
  match t with
  | [] => True
  | e :: t' => (∀ u, is_page_get u e = true → fetches u t' = 0) ∧ no_refetch t'
  end.

(** What one turn of the loop does to the frontier and to the trace: the
    popped address was visited and is dropped; or it was requested and an
    exception came before it was marked; or its page was processed. *)
Inductive turn {L : Lib} (c c' : NewsCrawler) (o : option exn) : Prop :=
  | turn_skip u :
      u ∈ queue c → u ∈ visited_urls c →
      c' = with_queue (queue c ∖ {[u]}) c → o = None →
      turn c c' o
  | turn_raise u r t' :
      u ∈ queue c → u ∉ visited_urls c →
      queue c' = queue c ∖ {[u]} → visited_urls c' = visited_urls c →
      trace c' = trace c ++ Get u r :: t' → quiet t' →
      (o = None → r = Raised RequestException) →
      turn c c' o
  | turn_page u s t' :
      u ∈ queue c → u ∉ visited_urls c →
      queue c' = (queue c ∖ {[u]}) ∪ (extract_links s u ∖ visited_urls c) →
      visited_urls c' = visited_urls c ∪ {[u]} →
      trace c' = trace c ++ Get u (Page s) :: t' → quiet t' →
      turn c c' o.

(** The log line of the handler, when the exception is the one it
    catches. *)
Definition logged_steps (u : string) (c : NewsCrawler) (o : option exn)
    : list NewsCrawler :=
  match o with
  | Some RequestException => [emit (LogCrawlError u) c]
  | _ => []
  end.

(** The states one turn of the loop passes through, in order: after the
    [pop]; after the request; after [save_article]; after [queue.update];
    after [visited_urls.add]; after the log line of the handler.  The last
    one is the state the turn ends in. *)
Definition iteration_steps {L : Lib} (w : world) (c : NewsCrawler)
    : list NewsCrawler :=
  match set_pop (pop_order w (trace c)) (queue c) with
  | None => []
  | Some u =>
      let c1 := with_queue (queue c ∖ {[u]}) c in
      if bool_decide (u ∈ visited_urls c1) then [c1]
      else
        let r := requests_get w (trace c1) u in
        let c2 := emit (Get u r) c1 in
        match r with
        | Raised e => [c1; c2] ++ logged_steps u c2 (Some e)
        | Page s =>
            match extract_article_data (now w (trace c2)) u s with
            | Raise e => [c1; c2] ++ logged_steps u c2 (Some e)
            | Ok article_data =>
                let c3 := save_article article_data c2 in
                let new_links := extract_links s u in
                let c4 := with_queue (queue c3 ∪ (new_links ∖ visited_urls c3)) c3 in
                let c5 := with_visited_urls (visited_urls c4 ∪ {[u]}) c4 in
                [c1; c2; c3; c4; c5] ++ logged_steps u c5 (sleep w (trace c5))
            end
        end
  end.

(** The observation points of a run from [c0]: between the turns of the
    loop, and between the steps of a turn. *)
Inductive observed {L : Lib} (w : world) (c0 : NewsCrawler) : NewsCrawler → Prop :=
  | observed_between c o : reachable w c0 c o → observed w c0 c
  | observed_within c c' :
      reachable w c0 c None → loop_guard c = true →
      c' ∈ iteration_steps w c → observed w c0 c'.

(** A page [s] fetched from [u] that lists [u] among its own article links. *)
Definition links_to_itself {L : Lib} (u : string) (t : list event) : Prop :=
  ∃ s, Get u (Page s) ∈ t ∧ u ∈ extract_links s u.

(** Invariants of the loop.  A page received from an address means the
    address is marked, as long as the loop goes on; and no address is
    requested after its page. *)
Definition fetch_inv (c : NewsCrawler) (o : option exn) : Prop :=
  no_refetch (trace c) ∧
  (o = None → ∀ u s, Get u (Page s) ∈ trace c → u ∈ visited_urls c).

(** An address in the queue and in the visited set got there from its own
    page. *)
Definition frontier_inv {L : Lib} (c : NewsCrawler) : Prop :=
  ∀ u, u ∈ queue c ∩ visited_urls c → links_to_itself u (trace c).

(** Adding records one after the other. *)
Definition save_articles (adds : list article) (c : NewsCrawler) : NewsCrawler :=
  foldl (λ c a, save_article a c) c adds.

(** The first record of [adds] whose url is [u]. *)
Definition first_with_url (u : string) (adds : list article) : option article :=
  List.find (λ a, String.eqb (url a) u) adds.

(** ** The classifier as the specification words it

    Host contains an allowed domain, the path does not end with a listed
    extension (case-insensitively), and the URL matches the pattern of a
    domain the host contains. *)

Definition spec_is_article_url (u : string) : bool :=
  let host := Url.hostname u in
  existsb (λ d, Py.contains d host) valid_domains
  && negb (existsb (λ ext, Py.endswith (Py.lower (Url.path u)) ext) file_extensions)
  && existsb (λ '(d, p), Py.contains d host && Py.contains p u) article_patterns.

(** The extension test of the code, on the whole address, and the one on
    the path give the same answer. *)
Definition same_extension_test (u : string) : Prop :=
  existsb (λ ext, Py.endswith (Py.lower u) ext) file_extensions
  = existsb (λ ext, Py.endswith (Py.lower (Url.path u)) ext) file_extensions.

Definition occurs_in (d s : string) : Prop := ∃ pre post, s = pre +:+ d +:+ post.

Definition ends_with (s ext : string) : Prop := ∃ pre, s = pre +:+ ext.

(** ** Scenarios

    Concrete pages and worlds.  Every link in them is an absolute URL in
    normal form, which [urljoin] returns as it is, the date parser is only
    asked about the one date string that occurs, and all text is ASCII, where
    the digits are the ten ASCII digits. *)

Module Scenario.

Definition home : string := "https://www.novinky.cz/".
Definition article_a : string := "https://www.novinky.cz/clanek/a".
Definition article_b : string := "https://www.novinky.cz/clanek/b".

(** The date strings the pages below carry, with what the library answers
    on them. *)
Definition known_dates : list (string * string) :=
  [("2024-05-01T10:00:00+00:00", "2024-05-01T10:00:00+00:00")].

Definition lib : Lib :=
  {| urljoin := λ _ href, href;
     fromisoformat := λ d,
       snd <$> List.find (λ '(given, _), String.eqb given d) known_dates;
     sub_nondigits := Py.filter Py.isdigit;
     parse_int := Py.int |}.

Definition link (href : string) : node :=
  Tag "a" {[ "href" := href ]} [NavigableString href].

Definition home_page : soup :=
  [Tag "title" ∅ [NavigableString "Novinky"]; link article_a; link article_b].

Definition page_b : soup :=
  [Tag "h1" ∅ [NavigableString "B"]; link article_a].

(** A page that links to its own address. *)
Definition page_a : soup :=
  [Tag "h1" ∅ [NavigableString "A"]; link article_a].

Definition midnight : string := "2026-01-01T00:00:00".

(** [article_a] is down; the set hands out [article_a] before
    [article_b]. *)
Definition flaky : world :=
  {| requests_get := λ _ u,
       if String.eqb u home then Page home_page
       else if String.eqb u article_b then Page page_b
       else Raised RequestException;
     pop_order := λ _, [home; article_a; article_b];
     now := λ _, midnight;
     sleep := λ _, None |}.

(** Every address answers with [page_a]. *)
Definition selfish : world :=
  {| requests_get := λ _ _, Page page_a;
     pop_order := λ _, [];
     now := λ _, midnight;
     sleep := λ _, None |}.

(** The operator interrupts the first request. *)
Definition interrupted : world :=
  {| requests_get := λ _ _, Raised KeyboardInterrupt;
     pop_order := λ _, [];
     now := λ _, midnight;
     sleep := λ _, None |}.

(** A page with a publication time in UTC. *)
Definition dated_page : soup :=
  [Tag "h1" ∅ [NavigableString "A"];
   Tag "meta" {[ "property" := "article:published_time";
                 "content" := "2024-05-01T10:00:00Z" ]} []].

(** A page with a date element that has no [content] attribute. *)
Definition undated_page : soup :=
  [Tag "h1" ∅ [NavigableString "A"]; Tag "meta" {[ "name" := "date" ]} []].

(** A page with a specific and a generic heading. *)
Definition two_headings : soup :=
  [Tag "h1" ∅ [NavigableString " Generic "];
   Tag "div" ∅ [Tag "h1" {[ "class" := "big article-title" ]}
                  [NavigableString " Specific "; Tag "b" ∅ [NavigableString "!"]]];
   Tag "title" ∅ [NavigableString "Document"]].

Definition record (u content : string) : article :=
  {| url := u; title := "t"; category := "c"; comments_count := 0;
     images_count := 0; content := content; created_at := midnight;
     source_website := Url.netloc u |}.

(** [n] records with pairwise different urls. *)
Definition records (n : nat) : list article :=
  (λ i, record (article_a +:+ pretty i) "x") <$> seq 0 n.

End Scenario.

(** ** Further observations *)

(** The number [extract_comments_count] reads off an element: [int] of
    what is left of the [content] attribute when the element has one, else
    of its text, once the non-digits are removed; [None] when [int] raises
    [ValueError]. *)
Definition comments_number {L : Lib} (e : node) : option N :=
  parse_int (sub_nondigits (default (get_text "" e) (get e "content"))).

(** The string [extract_date] reads off a date element. *)
Definition date_str (e : node) : option string :=
  Py.or_ (get e "content") (get e "datetime").

(** A date selector that [extract_date] passes over: it finds nothing, or
    what it finds carries a string the parser rejects. *)
Definition date_skipped {L : Lib} (s : soup) (sel : selector) : Prop :=
  select_one s sel = None ∨
  ∃ e d, select_one s sel = Some e ∧ date_str e = Some d ∧
         fromisoformat (Py.replace_char "Z" "+00:00" d) = None.

(** A comments selector that [extract_comments_count] passes over: it finds
    nothing, or [int] rejects what it finds. *)
Definition comments_skipped {L : Lib} (s : soup) (sel : selector) : Prop :=
  select_one s sel = None ∨
  ∃ e, select_one s sel = Some e ∧ comments_number e = None.

Definition is_page (e : event) : bool :=
  match e with
  | Get _ (Page _) => true
  | _ => false
  end.

(** How many requests were answered with a page. *)
Definition pages_received (t : list event) : nat :=
  length (List.filter is_page t).


(** The invariants of a run from a new crawler. *)
Record run_inv {L : Lib} (start : list string) (max : nat)
    (c : NewsCrawler) (o : option exn) : Prop := {
  inv_max : max_pages c = max;
  inv_cap : size (visited_urls c) ≤ max;
  inv_pages : pages_received (trace c) ≤ max;
  inv_marked : o = None → pages_received (trace c) = size (visited_urls c);
  inv_visited : ∀ u, u ∈ visited_urls c → ∃ s, Get u (Page s) ∈ trace c;
  inv_queue : ∀ u, u ∈ queue c → u ∈ start ∨ is_valid_article_url u = true;
  inv_requests : ∀ u r, Get u r ∈ trace c → u ∈ start ∨ is_valid_article_url u = true;
  inv_distinct : NoDup (url <$> articles c);
  inv_count : length (articles c) ≤ pages_received (trace c);
  inv_record : ∀ a, a ∈ articles c →
    ∃ s now, Get (url a) (Page s) ∈ trace c ∧
             extract_article_data now (url a) s = Ok a;
}.

(** * Properties *)

(** ** Strings *)

Section strings.

Implicit Types s t p d : string.

Lemma str_app_cons a s t : String a s +:+ t = String a (s +:+ t).
Proof. reflexivity. Qed.

Lemma str_app_empty_l s : "" +:+ s = s.
Proof. reflexivity. Qed.

Lemma str_app_empty_r s : s +:+ "" = s.
Proof. induction s as [|a s IH]; [done|]. by rewrite str_app_cons, IH. Qed.

Lemma str_app_assoc s t p : (s +:+ t) +:+ p = s +:+ (t +:+ p).
Proof. induction s as [|a s IH]; [done|]. by rewrite !str_app_cons, IH. Qed.


Lemma str_rev_app_spec s t : String.rev_app s t = String.rev s +:+ t.
Proof.
  revert t. induction s as [|a s IH]; intros t; [done|].
  unfold String.rev. simpl. rewrite (IH (String a "")), IH.
  by rewrite str_app_assoc.
Qed.

Lemma str_rev_cons a s : String.rev (String a s) = String.rev s +:+ String a "".
Proof. unfold String.rev at 1. simpl. apply str_rev_app_spec. Qed.

Lemma str_rev_app_distr s t : String.rev (s +:+ t) = String.rev t +:+ String.rev s.
Proof.
  induction s as [|a s IH].
  - by rewrite str_app_empty_l, str_app_empty_r.
  - by rewrite str_app_cons, !str_rev_cons, IH, str_app_assoc.
Qed.

Lemma str_rev_involutive s : String.rev (String.rev s) = s.
Proof.
  induction s as [|a s IH]; [done|].
  by rewrite str_rev_cons, str_rev_app_distr, IH.
Qed.

Lemma prefix_spec p s : String.prefix p s = true ↔ ∃ r, s = p +:+ r.
Proof.
  revert s. induction p as [|a p IH]; intros s.
  - split; [intros _; by exists s|]. by destruct s.
  - destruct s as [|b s]; simpl.
    + split; [done|]. by intros [r ?].
    + destruct (ascii_dec a b) as [->|Hne].
      * rewrite IH. split; intros [r Hr]; exists r.
        -- by rewrite str_app_cons, Hr.
        -- rewrite str_app_cons in Hr. by simplify_eq.
      * split; [done|]. intros [r Hr]. rewrite str_app_cons in Hr. by simplify_eq.
Qed.

Lemma contains_unfold d s :
  Py.contains d s =
    if String.prefix d s then true
    else match s with "" => false | String _ rest => Py.contains d rest end.
Proof. by destruct s. Qed.

Lemma contains_spec d s : Py.contains d s = true ↔ occurs_in d s.
Proof.
  unfold occurs_in. induction s as [|a s IH].
  - rewrite contains_unfold. destruct (String.prefix d "") eqn:Hp.
    + apply prefix_spec in Hp as [r Hr]. split; [|done]. intros _. exists "", r. exact Hr.
    + split; [done|]. intros (pre & post & Heq).
      destruct pre; [|done]. rewrite str_app_empty_l in Heq.
      assert (String.prefix d "" = true) as ?; [|congruence].
      apply prefix_spec. eauto.
  - rewrite contains_unfold. destruct (String.prefix d (String a s)) eqn:Hp.
    + apply prefix_spec in Hp as [r Hr]. split; [|done]. intros _. exists "", r. exact Hr.
    + rewrite IH. split.
      * intros (pre & post & ->). by exists (String a pre), post.
      * intros (pre & post & Heq). destruct pre as [|b pre].
        -- rewrite str_app_empty_l in Heq.
           assert (String.prefix d (String a s) = true) as ?; [|congruence].
           apply prefix_spec. eauto.
        -- rewrite str_app_cons in Heq. simplify_eq. eauto.
Qed.

Lemma endswith_spec s t : Py.endswith s t = true ↔ ends_with s t.
Proof.
  unfold Py.endswith, ends_with. rewrite prefix_spec. split.
  - intros [r Hr]. exists (String.rev r).
    by rewrite <-(str_rev_involutive s), Hr, str_rev_app_distr, str_rev_involutive.
  - intros [pre ->]. exists (String.rev pre). by rewrite str_rev_app_distr.
Qed.

End strings.

(** ** C8: the URL classifier *)

Lemma existsb_elem_of {A} (f : A → bool) (l : list A) :
  existsb f l = true ↔ ∃ x, x ∈ l ∧ f x = true.
Proof.
  rewrite existsb_exists. by setoid_rewrite list_elem_of_In.
Qed.

Lemma is_valid_article_url_conjunction u :
  is_valid_article_url u =
    existsb (λ d, Py.contains d (Url.netloc u)) valid_domains
    && existsb (λ '(d, p), Py.contains d (Url.netloc u) && Py.contains p u)
         article_patterns
    && negb (existsb (λ ext, Py.endswith (Py.lower u) ext) file_extensions).
Proof.
  unfold is_valid_article_url, article_patterns. simpl.
  by repeat destruct (Py.contains _ (Url.netloc u)); simpl;
    repeat destruct (Py.contains _ u).
Qed.

(** What the code tests.  [is_valid_article_url] accepts exactly when the
    three conditions hold together: the network location of the URL contains
    an allowed domain, the URL contains the article pattern of a domain its
    network location contains, and the URL string as a whole (query and
    fragment included), lower-cased, does not end with a listed extension. *)
Lemma is_valid_article_url_spec :
  (∀ u, is_valid_article_url u = true ↔
     (∃ d, d ∈ valid_domains ∧ occurs_in d (Url.netloc u)) ∧
     (∃ d p, (d, p) ∈ article_patterns ∧ occurs_in d (Url.netloc u) ∧ occurs_in p u) ∧
     (∀ ext, ext ∈ file_extensions → ¬ ends_with (Py.lower u) ext)) ∧
  is_valid_article_url "https://www.novinky.cz/clanek/x.jpg" = false ∧
  is_valid_article_url "https://www.idnes.cz/zpravy/y" = true ∧
  is_valid_article_url "https://www.example.com/clanek/x" = false.
Proof.
  split; [|by vm_compute].
  intros u. rewrite is_valid_article_url_conjunction, !andb_true_iff, negb_true_iff.
  rewrite <-not_true_iff_false, !existsb_elem_of.
  assert ((∃ x, x ∈ valid_domains ∧ Py.contains x (Url.netloc u) = true) ↔
          (∃ d, d ∈ valid_domains ∧ occurs_in d (Url.netloc u))) as ->.
  { by setoid_rewrite contains_spec. }
  assert ((∃ x, x ∈ article_patterns ∧
             (let '(d, p) := x in Py.contains d (Url.netloc u) && Py.contains p u) = true) ↔
          (∃ d p, (d, p) ∈ article_patterns ∧ occurs_in d (Url.netloc u) ∧ occurs_in p u))
    as ->.
  { split.
    - intros ([d p] & Hin & [Hd Hp]%andb_true_iff).
      exists d, p. by rewrite <-!contains_spec.
    - intros (d & p & Hin & Hd & Hp). exists (d, p).
      by rewrite andb_true_iff, !contains_spec. }
  assert ((¬ ∃ x, x ∈ file_extensions ∧ Py.endswith (Py.lower u) x = true) ↔
          (∀ ext, ext ∈ file_extensions → ¬ ends_with (Py.lower u) ext)) as ->.
  { split.
    - intros Hno ext Hin Hend. apply Hno. exists ext. by rewrite endswith_spec.
    - intros Hno (ext & Hin & Hend). by apply (Hno ext), endswith_spec. }
  tauto.
Qed.

Lemma no_extension_iff (t : string) :
  existsb (λ ext, Py.endswith t ext) file_extensions = false ↔
  ∀ ext, ext ∈ file_extensions → ¬ ends_with t ext.
Proof.
  rewrite <-not_true_iff_false, existsb_elem_of. split.
  - intros Hno ext Hin Hend. apply Hno. exists ext. by rewrite endswith_spec.
  - intros Hno (ext & Hin & Hend). by apply (Hno ext), endswith_spec.
Qed.

(** C8, amended.  The code reads the network location of the URL (the
    host together with any userinfo and port), not the host.  On every URL
    whose string ends with a listed extension exactly when its path does,
    [is_valid_article_url] accepts exactly when the three conditions hold
    together: the network location contains an allowed domain, the path does
    not end (case-insensitively) with a listed extension, and the URL
    contains the article pattern of a domain its network location contains.
    The three boundary cases come out as the specification lists them.
    Where the two extension tests differ nothing is said here. *)
Theorem is_valid_article_url_netloc :
  (∀ u, same_extension_test u →
     (is_valid_article_url u = true ↔
        (∃ d, d ∈ valid_domains ∧ occurs_in d (Url.netloc u)) ∧
        (∀ ext, ext ∈ file_extensions → ¬ ends_with (Py.lower (Url.path u)) ext) ∧
        (∃ d p, (d, p) ∈ article_patterns ∧
                occurs_in d (Url.netloc u) ∧ occurs_in p u))) ∧
  (same_extension_test "https://www.novinky.cz/clanek/x.jpg" ∧
   is_valid_article_url "https://www.novinky.cz/clanek/x.jpg" = false) ∧
  (same_extension_test "https://www.idnes.cz/zpravy/y" ∧
   is_valid_article_url "https://www.idnes.cz/zpravy/y" = true) ∧
  (same_extension_test "https://www.example.com/clanek/x" ∧
   is_valid_article_url "https://www.example.com/clanek/x" = false).
Proof.
  split; [|by vm_compute].
  intros u Hsame. destruct is_valid_article_url_spec as [Hcode _].
  rewrite Hcode, <-!no_extension_iff. unfold same_extension_test in Hsame.
  rewrite Hsame. tauto.
Qed.

Lemma is_valid_article_url_netloc_witness :
  is_valid_article_url "https://www.idnes.cz/zpravy/y" = true ↔
    (∃ d, d ∈ valid_domains ∧
          occurs_in d (Url.netloc "https://www.idnes.cz/zpravy/y")) ∧
    (∀ ext, ext ∈ file_extensions →
            ¬ ends_with (Py.lower (Url.path "https://www.idnes.cz/zpravy/y")) ext) ∧
    (∃ d p, (d, p) ∈ article_patterns ∧
            occurs_in d (Url.netloc "https://www.idnes.cz/zpravy/y") ∧
            occurs_in p "https://www.idnes.cz/zpravy/y").
Proof.
  apply (proj1 is_valid_article_url_netloc "https://www.idnes.cz/zpravy/y").
  vm_compute. reflexivity.
Defined.

(** C8, as the specification words it, fails twice.  A URL that carries an
    allowed domain in its userinfo is accepted though its host is another
    one; and a URL whose path ends in [.jpg] but which carries a query
    string is accepted. *)
Lemma is_valid_article_url_not_host_nor_path :
  (Url.netloc "https://novinky.cz@evil.example/clanek/x" = "novinky.cz@evil.example" ∧
   Url.hostname "https://novinky.cz@evil.example/clanek/x" = "evil.example" ∧
   spec_is_article_url "https://novinky.cz@evil.example/clanek/x" = false ∧
   is_valid_article_url "https://novinky.cz@evil.example/clanek/x" = true) ∧
  (Url.path "https://www.novinky.cz/clanek/x.jpg?v=1" = "/clanek/x.jpg" ∧
   spec_is_article_url "https://www.novinky.cz/clanek/x.jpg?v=1" = false ∧
   is_valid_article_url "https://www.novinky.cz/clanek/x.jpg?v=1" = true).
Proof. by vm_compute. Qed.

(** ** C10 and C3: extraction *)

Lemma extract_title_from_first (pre : list selector) sel post e (s : soup) :
  Forall (λ sel', select_one s sel' = None) pre →
  select_one s sel = Some e →
  extract_title_from (pre ++ sel :: post)%list s = get_text "" e.
Proof.
  intros Hpre Hsel. induction Hpre as [|sel' pre Hnone _ IH]; simpl.
  - by rewrite Hsel.
  - by rewrite Hnone.
Qed.

Lemma extract_title_from_none sels (s : soup) :
  Forall (λ sel, select_one s sel = None) sels →
  extract_title_from sels s = title_not_found.
Proof. induction 1 as [|sel sels Hnone _ IH]; simpl; [done|]. by rewrite Hnone. Qed.

(** C10.  The candidates are tried in the order [h1.article-title],
    [h1.title], [h1], [title]; the text of the element found by the first
    selector that finds one is returned (it may be the empty text, which is
    not the sentinel); with a specific heading present its text is
    returned whatever else the page holds; when no selector finds an element
    the result is the sentinel.  The function is total: there is no
    exception. *)
Theorem extract_title_fallback_order (s : soup) :
  title_selectors =
    [css_class "h1" "article-title"; css_class "h1" "title"; css_tag "h1"; css_tag "title"] ∧
  (∀ (pre : list selector) sel post e,
     title_selectors = (pre ++ sel :: post)%list →
     Forall (λ sel', select_one s sel' = None) pre →
     select_one s sel = Some e →
     extract_title s = get_text "" e) ∧
  (∀ e, select_one s (css_class "h1" "article-title") = Some e →
        extract_title s = get_text "" e) ∧
  (Forall (λ sel, select_one s sel = None) title_selectors →
   extract_title s = title_not_found).
Proof.
  split; [done|]. split; [|split].
  - intros pre sel post e Hsels Hpre Hsel. unfold extract_title.
    rewrite Hsels. by apply extract_title_from_first.
  - intros e He. unfold extract_title, title_selectors. simpl. by rewrite He.
  - apply extract_title_from_none.
Qed.

(** On a page with both headings the specific one wins, stripped and
    joined; an empty page gives the sentinel; an empty specific heading gives
    the empty text. *)
Example extract_title_examples :
  extract_title Scenario.two_headings = "Specific!" ∧
  extract_title [] = title_not_found ∧
  extract_title [Tag "h1" {[ "class" := "article-title" ]} [];
                 Tag "h1" ∅ [NavigableString "Generic"]] = "".
Proof. by vm_compute. Qed.

(** The only exception the extraction raises. *)
Lemma extract_date_from_raises {L : Lib} sels now (s : soup) e :
  extract_date_from sels now s = Raise e → e = AttributeError.
Proof.
  induction sels as [|sel sels IH]; simpl; [done|].
  repeat case_match; naive_solver.
Qed.

Lemma extract_article_data_raises {L : Lib} now u (s : soup) e :
  extract_article_data now u s = Raise e → e = AttributeError.
Proof.
  unfold extract_article_data, extract_date.
  destruct (extract_date_from _ _ _) eqn:Hd; simpl; [done|].
  intros [= <-]. by eapply extract_date_from_raises.
Qed.

(** Where it does not raise, the record is complete and carries the
    defaults. *)
Lemma extract_article_data_ok {L : Lib} now u (s : soup) created :
  extract_date now s = Ok created →
  extract_article_data now u s =
    Ok {| url := u; title := extract_title s; category := extract_category s;
          comments_count := extract_comments_count s;
          images_count := length (find_all s "img");
          content := extract_content s; created_at := created;
          source_website := Url.netloc u |}.
Proof. unfold extract_article_data. by intros ->. Qed.

Example extract_date_examples :
  extract_date (L:=Scenario.lib) Scenario.midnight Scenario.dated_page
    = Ok "2024-05-01T10:00:00+00:00" ∧
  extract_date (L:=Scenario.lib) Scenario.midnight Scenario.home_page
    = Ok Scenario.midnight.
Proof. by vm_compute. Qed.

(** C3 fails on the code.  A page whose date element has no [content]
    attribute, [<meta name="date">], makes [extract_date] call [.replace] on
    [None]: [extract_article_data] raises [AttributeError], which neither the
    extraction nor the crawl loop handles, instead of falling back to the
    crawl-time date.  This holds whatever the date parser and the clock
    answer. *)
Theorem extract_article_data_attribute_error :
  ∀ (L : Lib) (now u : string),
    extract_article_data now u Scenario.undated_page = Raise AttributeError.
Proof. intros L now u. by vm_compute. Qed.

(** ** C5, C6 and C7: the article store *)

Section store.

Implicit Types (c : NewsCrawler) (a : article) (adds : list article).

Lemma has_url_true u l : has_url u l = true ↔ ∃ x, x ∈ l ∧ url x = u.
Proof.
  unfold has_url. rewrite existsb_elem_of.
  by setoid_rewrite String.eqb_eq.
Qed.

Lemma has_url_false u l : has_url u l = false ↔ u ∉ url <$> l.
Proof.
  rewrite <-not_true_iff_false, has_url_true, list_elem_of_fmap.
  split; intros Hno (x & ? & ?); apply Hno; eauto.
Qed.

Lemma save_json_articles c : articles (save_json c) = articles c.
Proof. unfold save_json. by destruct (articles_file _). Qed.

Lemma save_json_trace c :
  trace (save_json c) =
    trace c ++ [SaveJson; match articles_file c with
                          | Some _ => LogSaved (length (articles c))
                          | None => LogSaveError
                          end].
Proof.
  unfold save_json. simpl. destruct (articles_file c); simpl;
    by rewrite <-app_assoc.
Qed.

Lemma flushes_app t1 t2 : flushes (t1 ++ t2) = flushes t1 + flushes t2.
Proof. unfold flushes. by rewrite List.filter_app, length_app. Qed.

Lemma save_json_flushes c : flushes (trace (save_json c)) = S (flushes (trace c)).
Proof.
  rewrite save_json_trace, flushes_app.
  destruct (articles_file c); unfold flushes; simpl; lia.
Qed.

Lemma save_article_articles a c :
  articles (save_article a c) =
    if has_url (url a) (articles c) then articles c else articles c ++ [a].
Proof.
  unfold save_article. destruct (has_url _ _); [done|].
  case_match; [by rewrite save_json_articles|done].
Qed.

Lemma save_article_flushes a c :
  flushes (trace (save_article a c)) =
    flushes (trace c) +
    (if negb (has_url (url a) (articles c))
        && (length (articles (save_article a c)) mod 50 =? 0)%nat
     then 1 else 0).
Proof.
  rewrite save_article_articles. unfold save_article.
  destruct (has_url _ _); simpl; [lia|].
  case_match.
  - rewrite save_json_flushes. simpl. rewrite flushes_app.
    replace (flushes [LogArticle (url a)]) with 0 by done. lia.
  - simpl. rewrite flushes_app.
    replace (flushes [LogArticle (url a)]) with 0 by done. lia.
Qed.

Lemma save_articles_snoc adds a c :
  save_articles (adds ++ [a]) c = save_article a (save_articles adds c).
Proof. unfold save_articles. by rewrite foldl_app. Qed.

Lemma first_with_url_snoc u adds a :
  first_with_url u (adds ++ [a]) =
    match first_with_url u adds with
    | Some x => Some x
    | None => if String.eqb (url a) u then Some a else None
    end.
Proof.
  unfold first_with_url. induction adds as [|b adds IH]; simpl; [done|].
  by destruct (String.eqb (url b) u).
Qed.

Lemma first_with_url_Some u adds x : first_with_url u adds = Some x → url x = u.
Proof. intros [_ ?%String.eqb_eq]%List.find_some. done. Qed.

(** What the store holds after [adds], starting empty. *)
Lemma save_articles_first adds c :
  articles c = [] →
  NoDup (url <$> articles (save_articles adds c)) ∧
  ∀ a, a ∈ articles (save_articles adds c) ↔ first_with_url (url a) adds = Some a.
Proof.
  intros Hempty. induction adds as [|b adds [IHnd IH]] using rev_ind.
  - simpl. rewrite Hempty. split; [constructor|]. intros a. by rewrite elem_of_nil.
  - rewrite save_articles_snoc, save_article_articles.
    set (l := articles (save_articles adds c)) in *.
    destruct (has_url (url b) l) eqn:Hhas.
    + split; [done|]. intros a. rewrite IH, first_with_url_snoc.
      destruct (first_with_url (url a) adds) eqn:Hfirst; [done|].
      apply has_url_true in Hhas as (x & Hx & Hurl).
      destruct (String.eqb_spec (url b) (url a)) as [Heq|]; [|done].
      apply IH in Hx. rewrite Hurl, Heq in Hx. congruence.
    + apply has_url_false in Hhas. split.
      * rewrite fmap_app. apply NoDup_app. split; [done|].
        split; [|apply NoDup_singleton].
        intros u Hu ->%list_elem_of_singleton. done.
      * intros a. rewrite elem_of_app, list_elem_of_singleton, IH, first_with_url_snoc.
        destruct (first_with_url (url a) adds) as [x|] eqn:Hfirst.
        -- split; [|by left]. intros [?| ->]; [done|].
           exfalso. apply Hhas. apply list_elem_of_fmap. exists x. split.
           ++ by apply first_with_url_Some in Hfirst.
           ++ apply IH. by rewrite (first_with_url_Some _ _ _ Hfirst).
        -- destruct (String.eqb_spec (url b) (url a)) as [Heq|Hne]; split.
           ++ intros [?| ->]; done.
           ++ intros [= ->]. by right.
           ++ intros [?| ->]; done.
           ++ done.
Qed.

Lemma div_50_succ n :
  S n / 50 = n / 50 + (if (S n mod 50 =? 0)%nat then 1 else 0).
Proof.
  pose proof (Nat.div_mod_eq n 50) as Hn.
  pose proof (Nat.mod_upper_bound n 50) as Hr.
  pose proof (Nat.div_mod_eq (S n) 50) as Hn'.
  pose proof (Nat.mod_upper_bound (S n) 50) as Hr'.
  destruct (Nat.eqb_spec (S n mod 50) 0); lia.
Qed.

Lemma save_articles_flushes adds c :
  articles c = [] → flushes (trace c) = 0 →
  flushes (trace (save_articles adds c)) =
    length (articles (save_articles adds c)) / 50.
Proof.
  intros Hempty Hzero. induction adds as [|b adds IH] using rev_ind.
  - simpl. by rewrite Hempty, Hzero.
  - rewrite save_articles_snoc, save_article_flushes, IH, save_article_articles.
    destruct (has_url _ _); cbn [negb andb]; [lia|].
    rewrite length_app. cbn [length]. by rewrite Nat.add_1_r, div_50_succ.
Qed.

End store.

(** C5.  [save_article] appends the record when no stored record has its
    url and changes nothing of the collection otherwise; after any sequence
    of adds to a new crawler the stored urls are pairwise distinct and the
    record stored for a url is the first one added with that url. *)
Theorem save_article_first_write_wins :
  (∀ a c, articles (save_article a c) =
            if has_url (url a) (articles c) then articles c
            else (articles c ++ [a])%list) ∧
  (∀ adds start max on_disk,
     let c := save_articles adds (init start max on_disk) in
     NoDup (url <$> articles c) ∧
     ∀ a, a ∈ articles c ↔ first_with_url (url a) adds = Some a).
Proof.
  split; [apply save_article_articles|].
  intros adds start max on_disk. by apply save_articles_first.
Qed.

(** Two records with one url and different content: the first is kept. *)
Example save_article_twice :
  articles (save_articles [Scenario.record Scenario.article_a "first";
                           Scenario.record Scenario.article_a "second"]
              (init [] 0 None))
  = [Scenario.record Scenario.article_a "first"].
Proof. by vm_compute. Qed.

(** C7.  An add enters [save_json] exactly when it inserts and the new size
    is a multiple of 50, and then once; a rejected add changes neither the
    size nor the number of checkpoints.  Over any sequence of adds to a new
    crawler the number of checkpoints is the number of stored records
    divided by 50: with pairwise different urls the 49th add has caused
    none, the 50th the first, the 100th the second and the 150th the
    third. *)
Theorem save_article_checkpoint_every_50 :
  (∀ a c,
     let c' := save_article a c in
     let inserted := negb (has_url (url a) (articles c)) in
     length (articles c') = length (articles c) + (if inserted then 1 else 0) ∧
     flushes (trace c') =
       flushes (trace c) +
       (if inserted && (length (articles c') mod 50 =? 0)%nat then 1 else 0)) ∧
  (∀ adds start max on_disk,
     let c := save_articles adds (init start max on_disk) in
     flushes (trace c) = length (articles c) / 50) ∧
  (λ n, flushes (trace (save_articles (Scenario.records n) (init [] 0 None))))
    <$> [49; 50; 99; 100; 149; 150] = [0; 1; 1; 2; 2; 3].
Proof.
  split; [|split].
  - intros a c. split; [|apply save_article_flushes].
    rewrite save_article_articles. destruct (has_url _ _); simpl; [lia|].
    rewrite length_app. simpl. lia.
  - intros adds start max on_disk. by apply save_articles_flushes.
  - by vm_compute.
Qed.

(** C6 fails on the code.  [save_json] opens the file with mode ['r+'],
    which neither creates nor truncates it.  Over a file left by an earlier
    run that is longer than the new text, the old tail stays behind the new
    text; and with no file there, nothing is written at all. *)
Theorem save_json_does_not_truncate :
  let old := Json.dumps [Scenario.record Scenario.article_a "x"] in
  let c := init [] 0 (Some old) in
  Json.dumps (articles c) = "[]" ∧
  articles_file (save_json c) = Some ("[]" +:+ string_drop 2 old) ∧
  String.length ("[]" +:+ string_drop 2 old) = String.length old ∧
  articles_file (save_json (init [] 0 None)) = None.
Proof. by vm_compute. Qed.

(** ** The crawl loop *)

Section loop.

Context {L : Lib} (w : world).

Implicit Types (c : NewsCrawler) (o : option exn) (t : list event) (u : string).

Lemma set_pop_Some prefer (q : gset string) u : set_pop prefer q = Some u → u ∈ q.
Proof.
  unfold set_pop. destruct (List.filter _ prefer) as [|v l] eqn:Hf.
  - intros Hu%head_Some_elem_of. by apply elem_of_elements.
  - intros [= ->]. assert (u ∈ List.filter (λ u, bool_decide (u ∈ q)) prefer) as Hin.
    { rewrite Hf. left. }
    apply list_elem_of_In, List.filter_In in Hin as [_ Hin].
    by apply bool_decide_eq_true in Hin.
Qed.

Lemma set_pop_None prefer (q : gset string) : set_pop prefer q = None → q = ∅.
Proof.
  unfold set_pop. destruct (List.filter _ prefer); [|done].
  intros Hnil%head_None. by apply elements_empty_inv, leibniz_equiv in Hnil.
Qed.

Lemma fetches_app u t1 t2 : fetches u (t1 ++ t2) = fetches u t1 + fetches u t2.
Proof. unfold fetches. by rewrite List.filter_app, length_app. Qed.

Lemma page_fetches_le u t : page_fetches u t ≤ fetches u t.
Proof.
  unfold page_fetches, fetches. induction t as [|[v [s|e]| | | | |] t IH]; simpl;
    try done; destruct (String.eqb u v); simpl; lia.
Qed.

Lemma fetches_elem_of u r t : Get u r ∈ t → 0 < fetches u t.
Proof.
  intros (t1 & t2 & ->)%list_elem_of_split. rewrite fetches_app.
  unfold fetches at 2. simpl. rewrite String.eqb_refl. simpl. lia.
Qed.

Lemma quiet_nil : quiet [].
Proof. done. Qed.

Lemma quiet_app t1 t2 : quiet t1 → quiet t2 → quiet (t1 ++ t2).
Proof. intros H1 H2 u. by rewrite fetches_app, H1, H2. Qed.

Lemma quiet_not_elem_of u r t : quiet t → Get u r ∉ t.
Proof. intros Hq Hin%fetches_elem_of. rewrite Hq in Hin. lia. Qed.

Lemma quiet_no_refetch t : quiet t → no_refetch t.
Proof.
  induction t as [|e t IH]; [done|]. intros Hq. split.
  - intros u Hu. specialize (Hq u). unfold fetches in *. simpl in Hq.
    destruct (is_get u e); simpl in Hq; lia.
  - apply IH. intros u. specialize (Hq u). unfold fetches in *. simpl in Hq.
    destruct (is_get u e); simpl in Hq; lia.
Qed.

Lemma is_page_get_true u e : is_page_get u e = true ↔ ∃ s, e = Get u (Page s).
Proof.
  destruct e as [v [s|x]| | | | |]; simpl; try (split; [done|by intros [? ?]]).
  - rewrite String.eqb_eq. split; [intros ->; eauto|by intros [? [= ->]]].
Qed.

Lemma no_refetch_app t1 t2 :
  no_refetch (t1 ++ t2) ↔
  no_refetch t1 ∧ no_refetch t2 ∧ ∀ u s, Get u (Page s) ∈ t1 → fetches u t2 = 0.
Proof.
  induction t1 as [|e t1 IH]; simpl.
  - split; [|tauto]. intros ?. repeat split; [done|]. intros ?? []%elem_of_nil.
  - rewrite IH. setoid_rewrite elem_of_cons. setoid_rewrite fetches_app. split.
    + intros (He & Ht1 & Ht2 & Hcross). split; [split|split]; [|done|done|].
      * intros u Hu. specialize (He u Hu). lia.
      * intros u s [<-|Hin]; [|by eapply Hcross].
        assert (is_page_get u (Get u (Page s)) = true) as Hu
          by (apply is_page_get_true; eauto).
        specialize (He u Hu). lia.
    + intros ((He & Ht1) & Ht2 & Hcross). split; [|split; [done|split; [done|]]].
      * intros u Hu. rewrite (He u Hu).
        apply is_page_get_true in Hu as [s ->]. by rewrite (Hcross u s); [|left].
      * intros u s Hin. apply (Hcross u s). by right.
Qed.

Lemma no_refetch_split t1 u s t2 :
  no_refetch (t1 ++ Get u (Page s) :: t2) → fetches u t2 = 0.
Proof.
  rewrite no_refetch_app. simpl. intros (_ & [He _] & _).
  apply He. by rewrite String.eqb_refl.
Qed.

Lemma no_refetch_page_fetches u t : no_refetch t → page_fetches u t ≤ 1.
Proof.
  induction t as [|e t IH]; simpl; [unfold page_fetches; simpl; lia|].
  intros [He Ht]. specialize (IH Ht). unfold page_fetches in *. simpl.
  destruct (is_page_get u e) eqn:Hu; [|done]. simpl.
  specialize (He u Hu). pose proof (page_fetches_le u t) as Hle.
  unfold page_fetches in Hle. lia.
Qed.

End loop.

Section turns.

Context {L : Lib} (w : world).

Implicit Types (c : NewsCrawler) (o : option exn) (t : list event) (u : string).

Lemma save_json_frame c :
  queue (save_json c) = queue c ∧ visited_urls (save_json c) = visited_urls c ∧
  max_pages (save_json c) = max_pages c.
Proof. unfold save_json. by destruct (articles_file _). Qed.

Lemma save_json_quiet c : ∃ t', trace (save_json c) = trace c ++ t' ∧ quiet t'.
Proof.
  rewrite save_json_trace. eexists. split; [done|].
  intros u. by destruct (articles_file c).
Qed.

Lemma save_article_frame a c :
  queue (save_article a c) = queue c ∧
  visited_urls (save_article a c) = visited_urls c ∧
  max_pages (save_article a c) = max_pages c ∧
  ∃ t', trace (save_article a c) = trace c ++ t' ∧ quiet t'.
Proof.
  unfold save_article. destruct (has_url _ _).
  { repeat split. exists []. by rewrite app_nil_r. }
  case_match.
  - destruct (save_json_frame (emit (LogArticle (url a))
                (with_articles (articles c ++ [a]) c))) as (-> & -> & ->).
    repeat split.
    destruct (save_json_quiet (emit (LogArticle (url a))
                (with_articles (articles c ++ [a]) c))) as (t' & -> & Hq).
    simpl. rewrite <-app_assoc. eexists. split; [done|].
    by apply (quiet_app [_]).
  - repeat split. simpl. eexists. split; [done|]. by intros u.
Qed.

Lemma except_request_exception_cases u c o c' o' :
  except_request_exception u (c, o) = (c', o') →
  (o = Some RequestException ∧ c' = emit (LogCrawlError u) c ∧ o' = None) ∨
  (o ≠ Some RequestException ∧ c' = c ∧ o' = o).
Proof.
  unfold except_request_exception.
  destruct o as [[]|]; intros [= <- <-]; (by left) || (by right).
Qed.

(** The three shapes of a turn. *)
Lemma iteration_turn c c' o :
  queue c ≠ ∅ → iteration w c = (c', o) → turn c c' o.
Proof.
  intros Hne. unfold iteration.
  destruct (set_pop _ _) as [u|] eqn:Hpop; [|by apply set_pop_None in Hpop].
  apply set_pop_Some in Hpop. simpl.
  destruct (bool_decide (u ∈ visited_urls c)) eqn:Hvis.
  { apply bool_decide_eq_true in Hvis. intros [= <- <-]. by eapply turn_skip. }
  apply bool_decide_eq_false in Hvis. unfold try_body. simpl.
  destruct (requests_get w (trace c) u) as [s|e] eqn:Hget.
  - destruct (extract_article_data _ u s) as [a|e] eqn:Hdata.
    + set (c1 := emit (Get u (Page s)) (with_queue (queue c ∖ {[u]}) c)).
      destruct (save_article_frame a c1) as (Hq & Hv & _ & t' & Ht & Hquiet).
      intros [(_ & -> & ->)|(_ & -> & ->)]%except_request_exception_cases.
      * eapply (turn_page _ _ _ u s (t' ++ [LogCrawlError u])); simpl; try done.
        -- by rewrite Hq, Hv.
        -- by rewrite Hv.
        -- rewrite Ht. simpl. by rewrite <-!app_assoc.
        -- apply quiet_app; [done|]. by intros v.
      * eapply (turn_page _ _ _ u s t'); simpl; try done.
        -- by rewrite Hq, Hv.
        -- by rewrite Hv.
        -- rewrite Ht. simpl. by rewrite <-!app_assoc.
    + apply extract_article_data_raises in Hdata as ->.
      intros [= <- <-]. by eapply (turn_raise _ _ _ u (Page s) []).
  - intros [([= ->] & -> & ->)|(Hno & -> & ->)]%except_request_exception_cases.
    + eapply (turn_raise _ _ _ u _ [LogCrawlError u]); simpl; try done.
      * by rewrite <-app_assoc.
    + eapply (turn_raise _ _ _ u _ []); simpl; try done.
Qed.

Lemma iteration_max_pages c c' o : iteration w c = (c', o) → max_pages c' = max_pages c.
Proof.
  unfold iteration. destruct (set_pop _ _) as [u|]; [|by intros [= <- <-]].
  simpl. case_match; [by intros [= <- <-]|].
  unfold try_body. simpl.
  destruct (requests_get _ _ _) as [s|e].
  - destruct (extract_article_data _ _ _) as [a|e].
    + match goal with |- context [save_article a ?c1] =>
        destruct (save_article_frame a c1) as (_ & _ & Hm & _) end.
      by intros [(_ & -> & _)|(_ & -> & _)]%except_request_exception_cases.
    + by intros [(_ & -> & _)|(_ & -> & _)]%except_request_exception_cases.
  - by intros [(_ & -> & _)|(_ & -> & _)]%except_request_exception_cases.
Qed.

Lemma loop_guard_true c :
  loop_guard c = true ↔ queue c ≠ ∅ ∧ size (visited_urls c) < max_pages c.
Proof.
  unfold loop_guard. by rewrite andb_true_iff, bool_decide_eq_true, Nat.ltb_lt.
Qed.

(** Each turn that goes on lowers the pair (pages still allowed, queue
    size) in the lexicographic order. *)
Lemma turn_measure c c' o :
  turn c c' o →
  (visited_urls c' = visited_urls c ∧ size (queue c') < size (queue c)) ∨
  size (visited_urls c') = S (size (visited_urls c)).
Proof.
  assert (∀ u (q : gset string), u ∈ q → size (q ∖ {[u]}) < size q) as Hless.
  { intros u q Hu. rewrite size_difference by set_solver.
    rewrite size_singleton. assert (size q ≠ 0); [|lia].
    intros Hz%size_empty_inv. set_solver. }
  intros [u Hq Hv -> _|u r t' Hq Hv -> -> _ _ _|u s t' Hq Hv _ -> _ _].
  - left. split; [done|]. by apply Hless.
  - left. split; [done|]. by apply Hless.
  - right. rewrite size_union by set_solver. rewrite size_singleton. lia.
Qed.

Lemma reachable_first c c1 c' o :
  loop_guard c = true → iteration w c = (c1, None) →
  reachable w c1 c' o → reachable w c c' o.
Proof.
  intros Hg Hit. induction 1 as [|c2 c3 o3 _ IH Hg2 Hit2].
  - eapply reach_turn; [apply reach_start|done..].
  - by eapply reach_turn.
Qed.

(** What the loop returns is a state it passes through. *)
Lemma crawl_loop_reachable fuel c c' o :
  crawl_loop w fuel c = Some (c', o) → reachable w c c' o.
Proof.
  revert c. induction fuel as [|fuel IH]; intros c; simpl.
  - destruct (loop_guard c); [done|]. intros [= <- <-]. constructor.
  - destruct (loop_guard c) eqn:Hg; [|intros [= <- <-]; constructor].
    destruct (iteration w c) as [c1 [e|]] eqn:Hit.
    + intros [= <- <-]. eapply reach_turn; [constructor|done..].
    + intros Hrun. eapply reachable_first; eauto.
Qed.

(** The loop ends, whatever the world does. *)
Lemma crawl_loop_terminates c :
  ∃ fuel c' o,
    crawl_loop w fuel c = Some (c', o) ∧ reachable w c c' o ∧
    (o = None → loop_guard c' = false).
Proof.
  remember (max_pages c - size (visited_urls c)) as n eqn:Hn.
  revert c Hn. induction n as [n IHn] using lt_wf_ind. intros c Hn.
  remember (size (queue c)) as m eqn:Hm.
  revert c Hn Hm. induction m as [m IHm] using lt_wf_ind. intros c Hn Hm.
  destruct (loop_guard c) eqn:Hg; last first.
  { exists 0, c, None. simpl. rewrite Hg. split; [done|]. split; [constructor|done]. }
  destruct (iteration w c) as [c1 o1] eqn:Hit.
  pose proof Hg as [Hne Hlt]%loop_guard_true.
  pose proof (iteration_max_pages _ _ _ Hit) as Hmax.
  destruct o1 as [e|].
  { exists 1, c1, (Some e). simpl. rewrite Hg, Hit. split; [done|]. split; [|done].
    eapply reach_turn; [constructor|done..]. }
  destruct (turn_measure _ _ _ (iteration_turn _ _ _ Hne Hit)) as [[Hv Hq]|Hv].
  - destruct (IHm (size (queue c1)) ltac:(lia) c1) as (fuel & c' & o & Hrun & Hreach & Hend);
      [by rewrite Hmax, Hv|done|].
    exists (S fuel), c', o. simpl. rewrite Hg, Hit. split; [done|]. split; [|done].
    by eapply reachable_first.
  - destruct (IHn (max_pages c1 - size (visited_urls c1)) ltac:(lia) c1 eq_refl)
      as (fuel & c' & o & Hrun & Hreach & Hend).
    exists (S fuel), c', o. simpl. rewrite Hg, Hit. split; [done|]. split; [|done].
    by eapply reachable_first.
Qed.

Lemma links_to_itself_app u t t' : links_to_itself u t → links_to_itself u (t ++ t').
Proof. intros (s & Hin & Hlink). exists s. split; [|done]. apply elem_of_app. by left. Qed.

Lemma no_refetch_request t u r t' :
  no_refetch t → quiet t' → (∀ s, Get u (Page s) ∉ t) →
  no_refetch (t ++ Get u r :: t').
Proof.
  intros Hnr Hquiet Hnew. apply no_refetch_app. split; [done|]. split.
  - simpl. split; [intros v _; apply Hquiet|by apply quiet_no_refetch].
  - intros v s Hin. unfold fetches. simpl.
    destruct (String.eqb_spec v u) as [->|_]; [by destruct (Hnew s)|apply Hquiet].
Qed.

Lemma turn_fetch_inv c c' o : fetch_inv c None → turn c c' o → fetch_inv c' o.
Proof.
  intros [Hnr Hvis] Hturn. specialize (Hvis eq_refl).
  assert (∀ u, u ∉ visited_urls c → ∀ s, Get u (Page s) ∉ trace c) as Hnew.
  { intros u Hu s Hin. by apply Hu, (Hvis u s). }
  destruct Hturn as [u Hq Hv -> ->|u r t' Hq Hv _ Hv' Ht Hquiet Hr
                    |u s t' Hq Hv _ Hv' Ht Hquiet].
  - done.
  - split.
    + rewrite Ht. apply no_refetch_request; auto.
    + intros -> v s. rewrite Ht, Hv', (Hr eq_refl).
      rewrite elem_of_app, elem_of_cons.
      intros [Hin|[?|Hin]]; [by eapply Hvis|done|].
      by apply quiet_not_elem_of in Hin.
  - split.
    + rewrite Ht. apply no_refetch_request; auto.
    + intros _ v s'. rewrite Ht, Hv'.
      rewrite elem_of_app, elem_of_cons.
      intros [Hin|[[= -> _]|Hin]].
      * apply elem_of_union_l. by eapply Hvis.
      * set_solver.
      * by apply quiet_not_elem_of in Hin.
Qed.

Lemma turn_frontier_inv c c' o : frontier_inv c → turn c c' o → frontier_inv c'.
Proof.
  intros Hinv [u Hq Hv -> ->|u r t' Hq Hv Hq' Hv' Ht _ _
              |u s t' Hq Hv Hq' Hv' Ht _] v; simpl.
  - intros Hin. apply Hinv. set_solver.
  - rewrite Hq', Hv', Ht. intros Hin. apply links_to_itself_app, Hinv. set_solver.
  - rewrite Hq', Hv', Ht. intros Hin.
    destruct (decide (v ∈ visited_urls c)) as [Hold|Hnew].
    + apply links_to_itself_app, Hinv. set_solver.
    + assert (v = u) as -> by set_solver.
      exists s. split; [|set_solver]. apply elem_of_app. right. left.
Qed.

Lemma frontier_inv_step c c' t :
  frontier_inv c →
  queue c' ∩ visited_urls c' ⊆ queue c ∩ visited_urls c →
  trace c' = trace c ++ t →
  frontier_inv c'.
Proof.
  intros Hinv Hsub Ht v Hv. rewrite Ht. apply links_to_itself_app, Hinv.
  by apply Hsub.
Qed.

Lemma frontier_inv_logged u c o c' :
  frontier_inv c → c' ∈ logged_steps u c o → frontier_inv c'.
Proof.
  intros Hinv. destruct o as [[]|]; simpl; try by intros ?%elem_of_nil.
  intros ->%list_elem_of_singleton. by eapply (frontier_inv_step c).
Qed.

(** The invariant of the frontier holds between the steps of a turn. *)
Lemma iteration_steps_frontier_inv c :
  frontier_inv c → ∀ c', c' ∈ iteration_steps w c → frontier_inv c'.
Proof.
  intros Hinv c'. unfold iteration_steps.
  destruct (set_pop _ _) as [u|]; [|by intros ?%elem_of_nil].
  set (c1 := with_queue (queue c ∖ {[u]}) c).
  assert (frontier_inv c1) as H1.
  { apply (frontier_inv_step c _ []); [done|simpl; set_solver|by rewrite app_nil_r]. }
  cbn zeta. destruct (bool_decide (u ∈ visited_urls c1)) eqn:Hvis.
  { by intros ->%list_elem_of_singleton. }
  apply bool_decide_eq_false in Hvis.
  set (r := requests_get w (trace c1) u).
  set (c2 := emit (Get u r) c1).
  assert (frontier_inv c2) as H2 by by eapply (frontier_inv_step c1).
  assert (∀ e c', c' ∈ [c1; c2] ++ logged_steps u c2 (Some e) → frontier_inv c')
    as Hraise.
  { intros e c''. rewrite elem_of_app, !elem_of_cons.
    intros [[->|[->|[]%elem_of_nil]]|Hlog]; [done..|].
    by eapply frontier_inv_logged. }
  destruct r as [s|e] eqn:Hr; [|apply Hraise].
  destruct (extract_article_data _ u s) as [a|e]; [|apply Hraise].
  set (c3 := save_article a c2).
  destruct (save_article_frame a c2) as (Hq3 & Hv3 & _ & t3 & Ht3 & _).
  fold c3 in Hq3, Hv3, Ht3.
  set (c4 := with_queue (queue c3 ∪ (extract_links s u ∖ visited_urls c3)) c3).
  set (c5 := with_visited_urls (visited_urls c4 ∪ {[u]}) c4).
  assert (frontier_inv c3) as H3.
  { apply (frontier_inv_step c2 _ t3); [done|by rewrite Hq3, Hv3|done]. }
  assert (frontier_inv c4) as H4.
  { apply (frontier_inv_step c3 _ []); [done|simpl; set_solver|by rewrite app_nil_r]. }
  assert (frontier_inv c5) as H5.
  { intros v Hv. destruct (decide (v ∈ visited_urls c4)) as [Hold|Hnew].
    - apply H4. simpl in *. set_solver.
    - assert (v = u) as -> by (simpl in *; set_solver).
      exists s. split.
      + simpl. rewrite Ht3. apply elem_of_app. left. simpl.
        apply elem_of_app. right. left.
      + simpl in Hv. rewrite Hq3, Hv3 in Hv. simpl in Hv. set_solver. }
  rewrite elem_of_app, !elem_of_cons.
  intros [[->|[->|[->|[->|[->|[]%elem_of_nil]]]]]|Hlog]; [done..|].
  by eapply frontier_inv_logged.
Qed.

(** The last of the steps of a turn is the state the turn ends in. *)
Lemma iteration_steps_last c c' o :
  queue c ≠ ∅ → iteration w c = (c', o) → last (iteration_steps w c) = Some c'.
Proof.
  intros Hne. unfold iteration, iteration_steps.
  destruct (set_pop _ _) as [u|] eqn:Hpop; [|by apply set_pop_None in Hpop].
  cbn zeta. destruct (bool_decide _); [by intros [= <- <-]|].
  unfold try_body. cbn zeta.
  destruct (requests_get _ _ u) as [s|e].
  - destruct (extract_article_data _ u s) as [a|e].
    + destruct (sleep _ _) as [[]|]; by intros [= <- <-].
    + destruct e; by intros [= <- <-].
  - destruct e; by intros [= <- <-].
Qed.

Lemma reachable_inv start max on_disk c o :
  reachable w (init start max on_disk) c o → fetch_inv c o ∧ frontier_inv c.
Proof.
  induction 1 as [|c c' o _ [IHf IHq] [Hne _]%loop_guard_true Hit].
  - split; [split|]; simpl.
    + done.
    + by intros _ u s ?%elem_of_nil.
    + intros u. set_solver.
  - pose proof (iteration_turn _ _ _ Hne Hit) as Hturn. split.
    + by eapply turn_fetch_inv.
    + by eapply turn_frontier_inv.
Qed.

End turns.

(** ** C1, C2, C4 and C9: the crawl loop *)

(** C1, as the code has it.  Every run of [crawl] ends, and in the trace
    of a run no address is requested again once a page has been received
    from it: each address yields a page at most once. *)
Theorem crawl_no_fetch_after_page {L : Lib} (w : world) start max on_disk :
  (∃ fuel c o, crawl w fuel (init start max on_disk) = Some (c, o)) ∧
  (∀ fuel c o,
     crawl w fuel (init start max on_disk) = Some (c, o) →
     ∀ u, page_fetches u (trace c) ≤ 1 ∧
          ∀ t1 s t2, trace c = t1 ++ Get u (Page s) :: t2 → fetches u t2 = 0).
Proof.
  split.
  - destruct (crawl_loop_terminates w (init start max on_disk))
      as (fuel & c1 & o & Hrun & _).
    exists fuel, (save_json c1), o. unfold crawl. by rewrite Hrun.
  - intros fuel c o. unfold crawl.
    destruct (crawl_loop w fuel _) as [[c1 o1]|] eqn:Hrun; [|done].
    intros [= <- <-].
    apply crawl_loop_reachable, reachable_inv in Hrun as [[Hnr _] _].
    assert (no_refetch (trace (save_json c1))) as Hfinal.
    { destruct (save_json_quiet c1) as (t' & -> & Hquiet).
      apply no_refetch_app. split; [done|]. split; [by apply quiet_no_refetch|].
      intros u s _. apply Hquiet. }
    intros u. split; [by apply no_refetch_page_fetches|].
    intros t1 s t2 Ht. rewrite Ht in Hfinal. by eapply no_refetch_split.
Qed.

(** C1 as stated fails: [article_a] is down, is popped before [article_b],
    and the page of [article_b] offers it again; it is requested twice. *)
Lemma crawl_fetches_failed_url_twice :
  ∃ c, crawl (L:=Scenario.lib) Scenario.flaky 4 (init [Scenario.home] 10 None)
       = Some (c, None) ∧
       fetches Scenario.article_a (trace c) = 2.
Proof. eexists. split; vm_compute; reflexivity. Qed.

(** C2, as the code has it.  When the request for the popped address
    raises the transport error, the turn logs the failure and goes on to the
    next one; no record is added, the file is untouched, the address has left
    the queue, and the visited set is unchanged: the address is not in it. *)
Theorem iteration_request_exception {L : Lib} (w : world) c u :
  set_pop (pop_order w (trace c)) (queue c) = Some u →
  bool_decide (u ∈ visited_urls c) = false →
  requests_get w (trace c) u = Raised RequestException →
  ∃ c', iteration w c = (c', None) ∧
        trace c' = trace c ++ [Get u (Raised RequestException); LogCrawlError u] ∧
        visited_urls c' = visited_urls c ∧
        (u ∉ visited_urls c') ∧
        queue c' = queue c ∖ {[u]} ∧
        articles c' = articles c ∧
        articles_file c' = articles_file c.
Proof.
  intros Hpop Hvis Hget. eexists. split.
  - unfold iteration. rewrite Hpop. simpl. rewrite Hvis.
    unfold try_body. simpl. rewrite Hget. reflexivity.
  - simpl. rewrite <-app_assoc. repeat split.
    by apply bool_decide_eq_false in Hvis.
Qed.

Lemma iteration_request_exception_witness :
  let c := init [Scenario.article_a] 10 None in
  ∃ c', iteration (L:=Scenario.lib) Scenario.flaky c = (c', None) ∧
        trace c' = trace c ++ [Get Scenario.article_a (Raised RequestException);
                               LogCrawlError Scenario.article_a] ∧
        visited_urls c' = visited_urls c ∧
        (Scenario.article_a ∉ visited_urls c') ∧
        queue c' = queue c ∖ {[Scenario.article_a]} ∧
        articles c' = articles c ∧
        articles_file c' = articles_file c.
Proof.
  apply (iteration_request_exception (L:=Scenario.lib) Scenario.flaky
           (init [Scenario.article_a] 10 None) Scenario.article_a);
    vm_compute; reflexivity.
Defined.

(** C2 as stated fails: after the failed request the address is not in the
    visited set. *)
Lemma failed_fetch_is_not_marked :
  let c := init [Scenario.article_a] 10 None in
  requests_get Scenario.flaky (trace c) Scenario.article_a = Raised RequestException ∧
  ∃ c', iteration (L:=Scenario.lib) Scenario.flaky c = (c', None) ∧
        bool_decide (Scenario.article_a ∈ visited_urls c') = false.
Proof. split; [reflexivity|]. eexists. split; vm_compute; reflexivity. Qed.

(** C4.  From any state the loop ends, by the loop condition or by an
    exception, and [crawl] then enters [save_json], once and after anything
    the loop did, before it hands the outcome on; there is no condition on
    the size of the collection.  Every result of [crawl] has this shape. *)
Theorem crawl_flushes_on_every_exit {L : Lib} (w : world) c :
  (∃ fuel c1 o,
     crawl_loop w fuel c = Some (c1, o) ∧
     (o = None → loop_guard c1 = false) ∧
     crawl w fuel c = Some (save_json c1, o)) ∧
  (∀ fuel c' o,
     crawl w fuel c = Some (c', o) →
     ∃ c1 line,
       crawl_loop w fuel c = Some (c1, o) ∧ c' = save_json c1 ∧
       trace c' = trace c1 ++ [SaveJson; line] ∧
       flushes (trace c') = S (flushes (trace c1))).
Proof.
  split.
  - destruct (crawl_loop_terminates w c) as (fuel & c1 & o & Hrun & _ & Hend).
    exists fuel, c1, o. unfold crawl. by rewrite Hrun.
  - intros fuel c' o. unfold crawl.
    destruct (crawl_loop w fuel c) as [[c1 o1]|]; [|done]. intros [= <- <-].
    eexists c1, _. split; [done|]. split; [done|].
    split; [apply save_json_trace|apply save_json_flushes].
Qed.

(** The three ways out: the queue runs empty, the page limit is reached,
    the operator interrupts; each time the trace ends with the call of
    [save_json] and its log line. *)
Example crawl_exit_paths :
  (λ r, (r.2, last (removelast (trace r.1)))) <$>
    crawl (L:=Scenario.lib) Scenario.flaky 4 (init [Scenario.home] 10 None)
  = Some (None, Some SaveJson) ∧
  (λ r, (r.2, size (queue r.1), last (removelast (trace r.1)))) <$>
    crawl (L:=Scenario.lib) Scenario.flaky 1 (init [Scenario.home] 1 None)
  = Some (None, 2, Some SaveJson) ∧
  (λ r, (r.2, last (removelast (trace r.1)))) <$>
    crawl (L:=Scenario.lib) Scenario.interrupted 1 (init [Scenario.home] 10 None)
  = Some (Some KeyboardInterrupt, Some SaveJson).
Proof. by vm_compute. Qed.

(** C9, as the code has it.  At every observation point of the loop,
    between its turns and between the steps of a turn, an address that is
    both in the queue and in the visited set is one whose own page listed it
    among its article links: it went back into the queue just before it was
    marked.  Where no page links to itself the two sets are disjoint. *)
Theorem queue_visited_overlap_is_self_link {L : Lib} (w : world)
    start max on_disk c u :
  observed w (init start max on_disk) c →
  u ∈ queue c ∩ visited_urls c →
  links_to_itself u (trace c).
Proof.
  intros [c1 o [_ Hinv]%reachable_inv|c1 c2 [_ Hinv]%reachable_inv _ Hin].
  - apply Hinv.
  - by apply (iteration_steps_frontier_inv w c1 Hinv c2).
Qed.

(** The first turn in a world where the page of [article_a] links to
    [article_a]. *)
Lemma selfish_first_turn :
  let c0 := init [Scenario.article_a] 10 None in
  ∃ c, loop_guard c0 = true ∧
       iteration (L:=Scenario.lib) Scenario.selfish c0 = (c, None) ∧
       loop_guard c = true ∧
       bool_decide (Scenario.article_a ∈ queue c ∩ visited_urls c) = true.
Proof. eexists. repeat split; vm_compute; reflexivity. Qed.

Lemma queue_visited_overlap_is_self_link_witness :
  ∃ c, iteration (L:=Scenario.lib) Scenario.selfish
         (init [Scenario.article_a] 10 None) = (c, None) ∧
       links_to_itself (L:=Scenario.lib) Scenario.article_a (trace c).
Proof.
  destruct selfish_first_turn as (c & Hg0 & Hit & Hg & Hin).
  exists c. split; [exact Hit|].
  apply (queue_visited_overlap_is_self_link (L:=Scenario.lib) Scenario.selfish
           [Scenario.article_a] 10 None c).
  - apply (observed_between _ _ c None).
    eapply reach_turn; [apply reach_start|exact Hg0|exact Hit].
  - exact (proj1 (bool_decide_eq_true _) Hin).
Defined.

(** C9 as stated fails: after the first turn [article_a] is in the queue
    and in the visited set, and the loop goes on. *)
Lemma queue_and_visited_overlap :
  let c0 := init [Scenario.article_a] 10 None in
  ∃ c, reachable (L:=Scenario.lib) Scenario.selfish c0 c None ∧
       loop_guard c = true ∧
       bool_decide (Scenario.article_a ∈ queue c ∩ visited_urls c) = true.
Proof.
  destruct selfish_first_turn as (c & Hg0 & Hit & Hg & Hin).
  exists c. split; [|exact (conj Hg Hin)].
  eapply reach_turn; [apply reach_start|exact Hg0|exact Hit].
Qed.

(** * Further properties of the code *)

(** ** Extraction of the other fields *)

Section extraction.

Context {L : Lib}.

Implicit Types (s : soup) (sel : selector) (e : node).

(** X1.  [extract_category] takes the first selector of [span.category],
    [div.rubrika], [meta[property=article:section]] that finds an element;
    a non-empty [content] attribute of that element is the category, else
    its stripped text; with no element anywhere the result is the
    sentinel. *)
Theorem extract_category_fallback s :
  (∀ (pre : list selector) sel post e,
     category_selectors = pre ++ sel :: post →
     Forall (λ sel', select_one s sel' = None) pre →
     select_one s sel = Some e →
     extract_category s =
       match get e "content" with
       | None | Some "" => get_text "" e
       | Some c => c
       end) ∧
  (Forall (λ sel, select_one s sel = None) category_selectors →
   extract_category s = category_not_found).
Proof.
  unfold extract_category. split.
  - intros pre sel post e -> Hpre Hsel.
    induction Hpre as [|sel' pre Hnone _ IH]; simpl.
    + rewrite Hsel. by destruct (get e "content") as [[|]|].
    + by rewrite Hnone.
  - induction 1 as [|sel sels Hnone _ IH]; simpl; [done|]. by rewrite Hnone.
Qed.

(** X2.  [extract_content] returns the text of the element found by the
    first of [div.article-content], [div.content], [article], [div.text]
    that finds one, its strings stripped and joined by single spaces; with
    no element the result is the sentinel. *)
Theorem extract_content_fallback s :
  (∀ (pre : list selector) sel post e,
     content_selectors = pre ++ sel :: post →
     Forall (λ sel', select_one s sel' = None) pre →
     select_one s sel = Some e →
     extract_content s = Py.join " " (stripped_strings e)) ∧
  (Forall (λ sel, select_one s sel = None) content_selectors →
   extract_content s = content_not_found).
Proof.
  unfold extract_content. split.
  - intros pre sel post e -> Hpre Hsel.
    induction Hpre as [|sel' pre Hnone _ IH]; simpl.
    + by rewrite Hsel.
    + by rewrite Hnone.
  - induction 1 as [|sel sels Hnone _ IH]; simpl; [done|]. by rewrite Hnone.
Qed.

Lemma extract_comments_count_skip sels s :
  Forall (comments_skipped s) sels →
  ∀ rest, extract_comments_count_from (sels ++ rest) s
          = extract_comments_count_from rest s.
Proof.
  induction 1 as [|sel sels Hskip _ IH]; intros rest; simpl; [done|].
  destruct Hskip as [->|(e & -> & Hnone)]; [done|].
  unfold comments_number in Hnone. by rewrite Hnone.
Qed.

(** X3.  [extract_comments_count] passes over every selector that finds no
    element or an element whose text, its non-digits removed, [int]
    rejects, and returns the number [int] reads off the first element it
    accepts (a [content] attribute, even an empty one, is read instead of
    the text); when every selector is passed over the count is 0. *)
Theorem extract_comments_count_fallback s :
  (∀ (pre : list selector) sel post e n,
     comments_selectors = pre ++ sel :: post →
     Forall (comments_skipped s) pre →
     select_one s sel = Some e →
     comments_number e = Some n →
     extract_comments_count s = n) ∧
  (Forall (comments_skipped s) comments_selectors →
   extract_comments_count s = 0%N).
Proof.
  unfold extract_comments_count. split.
  - intros pre sel post e n -> Hpre Hsel Hn.
    rewrite (extract_comments_count_skip _ _ Hpre). simpl. rewrite Hsel.
    unfold comments_number in Hn. by rewrite Hn.
  - intros Hall. rewrite <-(app_nil_r comments_selectors).
    by rewrite (extract_comments_count_skip _ _ Hall).
Qed.

Lemma extract_date_skip sels now s :
  Forall (date_skipped s) sels →
  ∀ rest, extract_date_from (sels ++ rest) now s = extract_date_from rest now s.
Proof.
  induction 1 as [|sel sels Hskip _ IH]; intros rest; simpl; [done|].
  destruct Hskip as [->|(e & d & -> & Hd & Hparse)]; [done|].
  fold (date_str e). by rewrite Hd, Hparse.
Qed.

Lemma extract_date_from_raise_inv sels now s x :
  extract_date_from sels now s = Raise x →
  ∃ (pre : list selector) sel post e,
    sels = pre ++ sel :: post ∧ Forall (date_skipped s) pre ∧
    select_one s sel = Some e ∧ date_str e = None.
Proof.
  induction sels as [|sel sels IH]; simpl; [done|].
  destruct (select_one s sel) as [e|] eqn:Hsel.
  - fold (date_str e). destruct (date_str e) as [d|] eqn:Hd.
    + destruct (fromisoformat _) as [iso|] eqn:Hparse; [done|].
      intros (pre & sel' & post & e' & -> & Hpre & Hsel' & Hd')%IH.
      exists (sel :: pre), sel', post, e'. split; [done|]. split; [|done].
      constructor; [|done]. right. eauto.
    + intros _. by exists [], sel, sels, e.
  - intros (pre & sel' & post & e' & -> & Hpre & Hsel' & Hd')%IH.
    exists (sel :: pre), sel', post, e'. split; [done|]. split; [|done].
    constructor; [|done]. by left.
Qed.

(** X4.  [extract_date] passes over every selector that finds no element
    or a string the parser rejects (an unparseable date falls through to
    the next candidate), and returns what the parser makes of the first
    string it accepts, every [Z] of it replaced by [+00:00] beforehand; when
    all three selectors are passed over the result is the current time.  It
    raises, and then [AttributeError], exactly when the first element not
    passed over has neither a non-empty [content] nor a [datetime]. *)
Theorem extract_date_fallback now s :
  (∀ (pre : list selector) sel post e d iso,
     date_selectors = pre ++ sel :: post →
     Forall (date_skipped s) pre →
     select_one s sel = Some e → date_str e = Some d →
     fromisoformat (Py.replace_char "Z" "+00:00" d) = Some iso →
     extract_date now s = Ok iso) ∧
  (Forall (date_skipped s) date_selectors → extract_date now s = Ok now) ∧
  (∀ x, extract_date now s = Raise x ↔
        x = AttributeError ∧
        ∃ (pre : list selector) sel post e,
          date_selectors = pre ++ sel :: post ∧ Forall (date_skipped s) pre ∧
          select_one s sel = Some e ∧ date_str e = None).
Proof.
  unfold extract_date. split; [|split].
  - intros pre sel post e d iso -> Hpre Hsel Hd Hparse.
    rewrite (extract_date_skip _ _ _ Hpre). simpl. rewrite Hsel.
    fold (date_str e). by rewrite Hd, Hparse.
  - intros Hall. rewrite <-(app_nil_r date_selectors).
    by rewrite (extract_date_skip _ _ _ Hall).
  - intros x. split.
    + intros Hraise. split; [by eapply extract_date_from_raises|].
      by eapply extract_date_from_raise_inv.
    + intros (-> & pre & sel & post & e & -> & Hpre & Hsel & Hd).
      rewrite (extract_date_skip _ _ _ Hpre). simpl. rewrite Hsel.
      fold (date_str e). by rewrite Hd.
Qed.

(** X5.  [extract_links] returns exactly the addresses that pass
    [is_valid_article_url] and are the [href] of some [a] element of the
    page joined to the base address; [a] elements without [href] contribute
    nothing. *)
Theorem extract_links_spec s base u :
  u ∈ extract_links s base ↔
  is_valid_article_url u = true ∧
  ∃ link href, link ∈ soup_descendants s ∧ matches (css_tag "a") link = true ∧
               get link "href" = Some href ∧ u = urljoin base href.
Proof.
  unfold extract_links, find_all.
  rewrite elem_of_list_to_set, list_elem_of_In, List.filter_In, <-list_elem_of_In.
  rewrite list_elem_of_omap. split.
  - intros [(link & Hin & Hhref) Hvalid]. split; [done|].
    apply list_elem_of_In, List.filter_In in Hin as [Hin Ha].
    destruct (get link "href") as [href|] eqn:Hget; [|done].
    simpl in Hhref. injection Hhref as <-.
    exists link, href. by rewrite list_elem_of_In.
  - intros [Hvalid (link & href & Hin & Ha & Hget & ->)]. split; [|done].
    exists link. split; [|by rewrite Hget].
    apply list_elem_of_In, List.filter_In. by rewrite <-list_elem_of_In.
Qed.

End extraction.

(** Pages for the examples: a comment count in the text, one in a
    [content] attribute, one without digits before one with. *)
Example extract_comments_count_examples :
  extract_comments_count (L:=Scenario.lib)
    [Tag "span" {[ "class" := "comments-count" ]}
       [NavigableString "1,234 comments"]] = 1234%N ∧
  extract_comments_count (L:=Scenario.lib)
    [Tag "meta" {[ "itemprop" := "commentCount"; "content" := "17" ]} []] = 17%N ∧
  extract_comments_count (L:=Scenario.lib)
    [Tag "span" {[ "class" := "comments-count" ]} [NavigableString "none"];
     Tag "div" {[ "class" := "comments-count" ]} [NavigableString "5"]] = 5%N ∧
  extract_comments_count (L:=Scenario.lib) [] = 0%N.
Proof. by vm_compute. Qed.

(** ** More on the classifier *)

(** X7.  An address without a network location (a relative reference, a
    [mailto:] or [javascript:] link) is never accepted; an accepted address
    contains [/clanek/] or [/zpravy/]; and the domain test adds nothing to
    the pattern test, which already asks for a listed domain in the network
    location. *)
Theorem is_valid_article_url_scope :
  (∀ u, Url.netloc u = "" → is_valid_article_url u = false) ∧
  (∀ u, is_valid_article_url u = true →
        occurs_in "/clanek/" u ∨ occurs_in "/zpravy/" u) ∧
  (∀ u, is_valid_article_url u =
          existsb (λ '(d, p), Py.contains d (Url.netloc u) && Py.contains p u)
            article_patterns
          && negb (existsb (λ ext, Py.endswith (Py.lower u) ext) file_extensions)).
Proof.
  split; [|split].
  - intros u Hnet. rewrite is_valid_article_url_conjunction, Hnet. reflexivity.
  - intros u. rewrite is_valid_article_url_conjunction, !andb_true_iff.
    intros [[_ Hpat] _]. apply existsb_elem_of in Hpat as ([d p] & Hin & Hdp).
    apply andb_true_iff in Hdp as [_ Hp%contains_spec].
    unfold article_patterns in Hin.
    repeat (apply elem_of_cons in Hin as [[= -> ->]|Hin]); auto.
    by apply elem_of_nil in Hin.
  - intros u. rewrite is_valid_article_url_conjunction.
    unfold article_patterns, valid_domains. simpl.
    by repeat destruct (Py.contains _ (Url.netloc u)).
Qed.

(** ** More on the output file *)

Section file.

Implicit Types (c : NewsCrawler) (old data : string).

Lemma string_drop_app data old : string_drop (String.length data) (data +:+ old) = old.
Proof. induction data as [|a data IH]; [by destruct old|]. by rewrite str_app_cons. Qed.



Lemma write_r_plus_twice old data :
  write_r_plus (write_r_plus old data) data = write_r_plus old data.
Proof. unfold write_r_plus. by rewrite string_drop_app. Qed.





Lemma save_article_no_file a c :
  articles_file c = None → articles_file (save_article a c) = None.
Proof.
  unfold save_article. destruct (has_url _ _); [done|]. intros Hnone.
  case_match; [|done]. unfold save_json. simpl. by rewrite Hnone.
Qed.



(** X9.  Saving twice in a row leaves the file as saving once does, and
    the collection as it was, whatever the file held; a missing file stays
    missing, and the failure is logged. *)
Theorem save_json_twice c :
  articles_file (save_json (save_json c)) = articles_file (save_json c) ∧
  articles (save_json c) = articles c ∧
  (articles_file c = None →
   articles_file (save_json c) = None ∧
   trace (save_json c) = trace c ++ [SaveJson; LogSaveError]).
Proof.
  split; [|split].
  - unfold save_json. simpl.
    destruct (articles_file c) as [old|] eqn:Hfile; simpl; [|by rewrite Hfile].
    by rewrite write_r_plus_twice.
  - apply save_json_articles.
  - intros Hnone. rewrite save_json_trace. unfold save_json. simpl.
    by rewrite Hnone.
Qed.

End file.

(** ** More on the crawl loop *)

Section runs.

Context {L : Lib} (w : world).

Implicit Types (c : NewsCrawler) (o : option exn) (t : list event) (u : string).

Lemma pages_received_app t1 t2 :
  pages_received (t1 ++ t2) = pages_received t1 + pages_received t2.
Proof. unfold pages_received. by rewrite List.filter_app, length_app. Qed.

Lemma quiet_pages_received t : quiet t → pages_received t = 0.
Proof.
  induction t as [|e t IH]; [done|]. intros Hq.
  assert (quiet t) as Hq'.
  { intros u. specialize (Hq u). unfold fetches in *. simpl in Hq.
    destruct (is_get u e); simpl in Hq; lia. }
  unfold pages_received in *. simpl. destruct e as [v r| | | | |]; simpl; auto.
  specialize (Hq v). unfold fetches in Hq. simpl in Hq.
  rewrite String.eqb_refl in Hq. simpl in Hq. lia.
Qed.

Lemma fetches_positive u t : 0 < fetches u t ↔ ∃ r, Get u r ∈ t.
Proof.
  split; [|intros [r Hin]; by eapply fetches_elem_of].
  unfold fetches. induction t as [|e t IH]; simpl; [lia|].
  destruct (is_get u e) eqn:He.
  - destruct e as [v r| | | | |]; try done. simpl in He.
    apply String.eqb_eq in He as ->. intros _. exists r. left.
  - intros [r Hin]%IH. exists r. by right.
Qed.

Lemma extract_article_data_url now u (s : soup) a :
  extract_article_data now u s = Ok a → url a = u.
Proof.
  unfold extract_article_data. destruct (extract_date now s); simpl; [|done].
  by intros [= <-].
Qed.

(** What one turn does to the collection, the file and the trace: nothing
    to the first two; or it received a page and handed its record to
    [save_article]. *)
Lemma iteration_store c c' o :
  iteration w c = (c', o) →
  (articles c' = articles c ∧ articles_file c' = articles_file c ∧
   ∃ t', trace c' = trace c ++ t') ∨
  ∃ u s a c1 t',
    extract_article_data (now w (trace c1)) u s = Ok a ∧
    trace c' = trace c ++ Get u (Page s) :: t' ∧ quiet t' ∧
    articles c1 = articles c ∧ articles_file c1 = articles_file c ∧
    articles c' = articles (save_article a c1) ∧
    articles_file c' = articles_file (save_article a c1).
Proof.
  unfold iteration. destruct (set_pop _ _) as [u|].
  2:{ intros [= <- <-]. left. repeat split. exists []. by rewrite app_nil_r. }
  simpl. destruct (bool_decide _).
  { intros [= <- <-]. left. repeat split. exists []. by rewrite app_nil_r. }
  unfold try_body. simpl.
  destruct (requests_get w (trace c) u) as [s|e].
  - set (c1 := emit (Get u (Page s)) (with_queue (queue c ∖ {[u]}) c)).
    destruct (extract_article_data _ u s) as [a|e] eqn:Hdata.
    + destruct (save_article_frame a c1) as (_ & _ & _ & t' & Ht & Hquiet).
      intros Hexc. right.
      apply except_request_exception_cases in Hexc as [(_ & -> & _)|(_ & -> & _)].
      * exists u, s, a, c1, (t' ++ [LogCrawlError u]). simpl.
        rewrite Ht. simpl. rewrite <-!app_assoc. repeat split; try done.
        apply quiet_app; [done|]. by intros v.
      * exists u, s, a, c1, t'. simpl.
        rewrite Ht. simpl. rewrite <-!app_assoc. by repeat split.
    + apply extract_article_data_raises in Hdata as ->.
      intros [= <- <-]. left. simpl. repeat split. by eexists.
  - intros Hexc. left.
    apply except_request_exception_cases in Hexc as [(_ & -> & _)|(_ & -> & _)];
      simpl; repeat split; rewrite <-?app_assoc; by eexists.
Qed.

Lemma run_inv_init start max on_disk : run_inv start max (init start max on_disk) None.
Proof.
  split; cbn [init max_pages visited_urls queue trace articles].
  - done.
  - rewrite size_empty. lia.
  - unfold pages_received. simpl. lia.
  - intros _. by rewrite size_empty.
  - intros u. set_solver.
  - intros u Hu%elem_of_list_to_set. by left.
  - intros u r Hin. by apply elem_of_nil in Hin.
  - constructor.
  - done.
  - intros a Hin. by apply elem_of_nil in Hin.
Qed.

Lemma run_inv_turn start max c c' o :
  run_inv start max c None → loop_guard c = true → iteration w c = (c', o) →
  run_inv start max c' o.
Proof.
  intros [Hmax Hcap Hpages Hmarked Hvis Hqueue Hreq Hnd Hcount Hrec]
         [Hne Hlt]%loop_guard_true Hit.
  specialize (Hmarked eq_refl). rewrite Hmax in Hlt.
  pose proof (iteration_max_pages w _ _ _ Hit) as Hmax'.
  pose proof (iteration_turn w _ _ _ Hne Hit) as Hturn.
  pose proof (iteration_store _ _ _ Hit) as Hstore.
  assert (∀ u, u ∈ queue c → ∀ r t', quiet t' → ∀ v r',
            Get v r' ∈ trace c ++ Get u r :: t' →
            v ∈ start ∨ is_valid_article_url v = true) as Hreq'.
  { intros u Hu r t' Hquiet v r'. rewrite elem_of_app, elem_of_cons.
    intros [Hin|[[= -> _]|Hin]]; [by eapply Hreq|by apply Hqueue|].
    by apply quiet_not_elem_of in Hin. }
  assert (NoDup (url <$> articles c') ∧
          length (articles c') ≤ length (articles c) + 
            (pages_received (trace c') - pages_received (trace c)) ∧
          pages_received (trace c) ≤ pages_received (trace c') ∧
          ∀ a, a ∈ articles c' →
            ∃ s now, Get (url a) (Page s) ∈ trace c' ∧
                     extract_article_data now (url a) s = Ok a)
    as (Hnd' & Hcount' & Hmono & Hrec').
  { destruct Hstore as [(-> & _ & t' & ->)
                       |(u & s & a & c1 & t' & Hdata & -> & Hquiet & Ha & _ & -> & _)].
    - rewrite pages_received_app. split; [done|]. split; [lia|]. split; [lia|].
      intros a (s & now' & Hin & Hdata)%Hrec. exists s, now'. split; [|done].
      apply elem_of_app. by left.
    - rewrite save_article_articles, Ha, pages_received_app.
      assert (pages_received (Get u (Page s) :: t') = 1) as ->.
      { change (Get u (Page s) :: t') with ([Get u (Page s)] ++ t').
        by rewrite pages_received_app, (quiet_pages_received t'). }
      pose proof (extract_article_data_url _ _ _ _ Hdata) as Hurl.
      assert (∀ a', a' ∈ articles c →
                ∃ s' now', Get (url a') (Page s') ∈ trace c ++ Get u (Page s) :: t' ∧
                           extract_article_data now' (url a') s' = Ok a') as Hold.
      { intros a' (s' & now' & Hin & Hdata')%Hrec. exists s', now'.
        split; [|done]. apply elem_of_app. by left. }
      destruct (has_url (url a) (articles c)) eqn:Hhas.
      + split; [done|]. split; [lia|]. split; [lia|done].
      + apply has_url_false in Hhas. split; [|split; [|split; [lia|]]].
        * rewrite fmap_app. apply NoDup_app. split; [done|].
          split; [|apply NoDup_singleton].
          intros v Hv ->%list_elem_of_singleton. done.
        * rewrite length_app. simpl. lia.
        * intros a' [Hin| ->%list_elem_of_singleton]%elem_of_app; [by apply Hold|].
          exists s, (now w (trace c1)). rewrite Hurl. split; [|done].
          apply elem_of_app. right. left. }
  assert (length (articles c') ≤ pages_received (trace c')) as Hcount'' by lia.
  destruct Hturn as [u Hq Hv Hc' ->|u r t' Hq Hv Hq' Hv' Ht Hquiet Hr
                    |u s t' Hq Hv Hq' Hv' Ht Hquiet].
  - assert (trace c' = trace c ∧ visited_urls c' = visited_urls c ∧
            queue c' = queue c ∖ {[u]}) as (Ht & Hv' & Hq') by (by subst c').
    split; [congruence| | | | | | |exact Hnd'|exact Hcount''|exact Hrec'].
    + by rewrite Hv'.
    + by rewrite Ht.
    + intros _. by rewrite Ht, Hv'.
    + intros v. rewrite Hv', Ht. apply Hvis.
    + intros v. rewrite Hq'. intros Hin. apply Hqueue. set_solver.
    + rewrite Ht. apply Hreq.
  - assert (pages_received (trace c') ≤ S (pages_received (trace c))) as Hone.
    { rewrite Ht, pages_received_app.
      change (Get u r :: t') with ([Get u r] ++ t').
      rewrite pages_received_app, (quiet_pages_received t') by done.
      unfold pages_received at 2. simpl. destruct r; simpl; lia. }
    split; [congruence| | | | | | |exact Hnd'|exact Hcount''|exact Hrec'].
    + by rewrite Hv'.
    + lia.
    + intros ->. rewrite Hv', Ht, pages_received_app, (Hr eq_refl).
      change (Get u _ :: t') with ([Get u (Raised RequestException)] ++ t').
      rewrite pages_received_app, (quiet_pages_received t') by done.
      unfold pages_received at 2. simpl. lia.
    + intros v. rewrite Hv', Ht. intros (s & Hin)%Hvis. exists s.
      apply elem_of_app. by left.
    + intros v. rewrite Hq'. intros Hin. apply Hqueue. set_solver.
    + rewrite Ht. by eapply Hreq'.
  - assert (pages_received (trace c') = S (pages_received (trace c))) as Hone.
    { rewrite Ht, pages_received_app.
      change (Get u (Page s) :: t') with ([Get u (Page s)] ++ t').
      rewrite pages_received_app, (quiet_pages_received t') by done.
      unfold pages_received at 2. simpl. lia. }
    assert (size (visited_urls c') = S (size (visited_urls c))) as Hsize.
    { rewrite Hv', size_union by set_solver. rewrite size_singleton. lia. }
    split; [congruence| | | | | | |exact Hnd'|exact Hcount''|exact Hrec'].
    + lia.
    + lia.
    + intros _. lia.
    + intros v. rewrite Hv', Ht.
      intros [(s' & Hin)%Hvis| ->%elem_of_singleton]%elem_of_union.
      * exists s'. apply elem_of_app. by left.
      * exists s. apply elem_of_app. right. left.
    + intros v. rewrite Hq'.
      intros [Hin|[Hin _]%elem_of_difference]%elem_of_union.
      * apply Hqueue. set_solver.
      * right. by apply extract_links_spec in Hin as [? _].
    + rewrite Ht. by eapply Hreq'.
Qed.

Lemma reachable_run_inv start max on_disk c o :
  reachable w (init start max on_disk) c o → run_inv start max c o.
Proof.
  induction 1 as [|c c' o _ IH Hg Hit]; [apply run_inv_init|].
  by eapply run_inv_turn.
Qed.

(** The state [crawl] returns: what the loop left, after [save_json]. *)
Lemma crawl_result fuel c0 c o :
  crawl w fuel c0 = Some (c, o) →
  ∃ c1, reachable w c0 c1 o ∧ c = save_json c1.
Proof.
  unfold crawl. destruct (crawl_loop w fuel c0) as [[c1 o1]|] eqn:Hrun; [|done].
  intros [= <- <-]. exists c1. split; [by eapply crawl_loop_reachable|done].
Qed.

Lemma save_json_pages_received c1 :
  pages_received (trace (save_json c1)) = pages_received (trace c1).
Proof.
  rewrite save_json_trace, pages_received_app.
  unfold pages_received at 2. destruct (articles_file c1); simpl; lia.
Qed.

End runs.

Section results.

Context {L : Lib} (w : world).

Implicit Types (c : NewsCrawler) (o : option exn) (u : string).



Lemma reachable_no_file c0 c o :
  articles_file c0 = None → reachable w c0 c o → articles_file c = None.
Proof.
  intros Hnone. induction 1 as [|c c' o _ IH _ Hit]; [done|].
  destruct (iteration_store w _ _ _ Hit)
    as [(_ & -> & _)|(u & s & a & c1 & t' & _ & _ & _ & _ & Hf & _ & ->)]; [done|].
  apply save_article_no_file. by rewrite Hf.
Qed.

(** X10.  A run receives at most [max_pages] pages and marks at most
    [max_pages] addresses, however many requests fail. *)
Theorem crawl_page_cap start max on_disk fuel c o :
  crawl w fuel (init start max on_disk) = Some (c, o) →
  pages_received (trace c) ≤ max ∧ size (visited_urls c) ≤ max.
Proof.
  intros (c1 & Hreach%reachable_run_inv & ->)%crawl_result.
  rewrite save_json_pages_received.
  destruct (save_json_frame c1) as (_ & -> & _).
  split; [apply Hreach|apply Hreach].
Qed.

(** X11.  After a run the collection holds at most one record per address,
    and no more records than pages were received. *)
Theorem crawl_collection_bounded start max on_disk fuel c o :
  crawl w fuel (init start max on_disk) = Some (c, o) →
  NoDup (url <$> articles c) ∧ length (articles c) ≤ pages_received (trace c).
Proof.
  intros (c1 & Hreach%reachable_run_inv & ->)%crawl_result.
  rewrite save_json_pages_received, save_json_articles.
  split; apply Hreach.
Qed.

(** X12.  The visited set is the set of addresses a page was received
    from: every marked address has its page in the trace, and when the run
    ended without an exception every address with a page in the trace is
    marked. *)
Theorem crawl_visited_are_pages start max on_disk fuel c o u :
  crawl w fuel (init start max on_disk) = Some (c, o) →
  (u ∈ visited_urls c → ∃ s, Get u (Page s) ∈ trace c) ∧
  (o = None → ∀ s, Get u (Page s) ∈ trace c → u ∈ visited_urls c).
Proof.
  intros (c1 & Hreach & ->)%crawl_result.
  destruct (save_json_frame c1) as (_ & -> & _). rewrite save_json_trace.
  split.
  - intros (s & Hin)%(inv_visited _ _ _ _ (reachable_run_inv _ _ _ _ _ _ Hreach)).
    exists s. apply elem_of_app. by left.
  - intros -> s. apply reachable_inv in Hreach as [[_ Hmarked] _].
    rewrite elem_of_app. intros [Hin|Hin]; [by eapply Hmarked|].
    destruct (articles_file c1);
      repeat (apply elem_of_cons in Hin as [?|Hin]; [done|]);
      by apply elem_of_nil in Hin.
Qed.

(** X13.  Every address a run requests is a start address or passes
    [is_valid_article_url]. *)
Theorem crawl_requests_in_scope start max on_disk fuel c o u :
  crawl w fuel (init start max on_disk) = Some (c, o) →
  0 < fetches u (trace c) →
  u ∈ start ∨ is_valid_article_url u = true.
Proof.
  intros (c1 & Hreach%reachable_run_inv & ->)%crawl_result.
  destruct (save_json_quiet c1) as (t' & -> & Hquiet).
  rewrite fetches_app, Hquiet, Nat.add_0_r.
  intros [r Hin]%fetches_positive. by eapply (inv_requests _ _ _ _ Hreach).
Qed.

(** X14.  Every record of the collection is what [extract_article_data]
    made of a page received from the record's own address. *)
Theorem crawl_records_from_pages start max on_disk fuel c o i a :
  crawl w fuel (init start max on_disk) = Some (c, o) →
  articles c !! i = Some a →
  ∃ s now, Get (url a) (Page s) ∈ trace c ∧
           extract_article_data now (url a) s = Ok a.
Proof.
  intros (c1 & Hreach%reachable_run_inv & ->)%crawl_result.
  rewrite save_json_articles, save_json_trace.
  intros Hin%list_elem_of_lookup_2.
  apply (inv_record _ _ _ _ Hreach) in Hin as (s & now' & Hin & Hdata).
  exists s, now'. split; [|done]. apply elem_of_app. by left.
Qed.

(** X15.  When the output file does not exist at the start, a run never
    creates it: every [save_json] fails, the last one included, and what
    was collected stays in memory only. *)
Theorem crawl_never_creates_file start max fuel c o :
  crawl w fuel (init start max None) = Some (c, o) →
  articles_file c = None ∧
  ∃ t, trace c = t ++ [SaveJson; LogSaveError].
Proof.
  intros (c1 & Hreach & ->)%crawl_result.
  apply reachable_no_file in Hreach; [|done].
  destruct (save_json_twice c1) as (_ & _ & Hmissing).
  destruct (Hmissing Hreach) as [-> ->]. eauto.
Qed.



(** X17.  With no start address, or with a page limit of 0, a run requests
    nothing and goes straight to the final [save_json]. *)
Theorem crawl_nothing_to_do start max on_disk fuel :
  start = [] ∨ max = 0 →
  crawl w fuel (init start max on_disk)
  = Some (save_json (init start max on_disk), None).
Proof.
  intros Hidle. unfold crawl.
  assert (loop_guard (init start max on_disk) = false) as Hg.
  { unfold loop_guard. simpl. destruct Hidle as [->| ->].
    - simpl. by rewrite bool_decide_eq_false_2 by (intros Hne; by apply Hne).
    - rewrite andb_false_iff. right. by apply Nat.ltb_ge, Nat.le_0_l. }
  destruct fuel; simpl; by rewrite Hg.
Qed.

End results.

(** ** The runs of the scenarios *)

Lemma flaky_run :
  ∃ c, crawl (L:=Scenario.lib) Scenario.flaky 4 (init [Scenario.home] 10 None)
       = Some (c, None) ∧
       fetches Scenario.article_a (trace c) = 2 ∧
       ∃ a, articles c !! 0 = Some a.
Proof.
  eexists. split; [vm_compute; reflexivity|].
  split; [vm_compute; reflexivity|]. eexists. vm_compute. reflexivity.
Qed.


Lemma crawl_page_cap_witness :
  ∃ c, crawl (L:=Scenario.lib) Scenario.flaky 4 (init [Scenario.home] 10 None)
       = Some (c, None) ∧
       pages_received (trace c) ≤ 10 ∧ size (visited_urls c) ≤ 10.
Proof.
  destruct flaky_run as (c & Hrun & _). exists c. split; [exact Hrun|].
  exact (crawl_page_cap (L:=Scenario.lib) Scenario.flaky _ _ _ _ _ _ Hrun).
Defined.

Lemma crawl_collection_bounded_witness :
  ∃ c, crawl (L:=Scenario.lib) Scenario.flaky 4 (init [Scenario.home] 10 None)
       = Some (c, None) ∧
       NoDup (url <$> articles c) ∧ length (articles c) ≤ pages_received (trace c).
Proof.
  destruct flaky_run as (c & Hrun & _). exists c. split; [exact Hrun|].
  exact (crawl_collection_bounded (L:=Scenario.lib) Scenario.flaky _ _ _ _ _ _ Hrun).
Defined.

Lemma crawl_visited_are_pages_witness :
  ∃ c, crawl (L:=Scenario.lib) Scenario.flaky 4 (init [Scenario.home] 10 None)
       = Some (c, None) ∧
       (Scenario.home ∈ visited_urls c ↔ ∃ s, Get Scenario.home (Page s) ∈ trace c).
Proof.
  destruct flaky_run as (c & Hrun & _). exists c. split; [exact Hrun|].
  destruct (crawl_visited_are_pages (L:=Scenario.lib) Scenario.flaky
              _ _ _ _ _ _ Scenario.home Hrun) as [Hpage Hmarked].
  split; [exact Hpage|]. intros [s Hs]. exact (Hmarked eq_refl s Hs).
Defined.

Lemma crawl_requests_in_scope_witness :
  ∃ c, crawl (L:=Scenario.lib) Scenario.flaky 4 (init [Scenario.home] 10 None)
       = Some (c, None) ∧
       (Scenario.article_a ∈ [Scenario.home] ∨
        is_valid_article_url Scenario.article_a = true).
Proof.
  destruct flaky_run as (c & Hrun & Hfetches & _). exists c. split; [exact Hrun|].
  apply (crawl_requests_in_scope (L:=Scenario.lib) Scenario.flaky
           _ _ _ _ _ _ Scenario.article_a Hrun).
  rewrite Hfetches. lia.
Defined.

Lemma crawl_records_from_pages_witness :
  ∃ c a, crawl (L:=Scenario.lib) Scenario.flaky 4 (init [Scenario.home] 10 None)
         = Some (c, None) ∧
         ∃ s now, Get (url a) (Page s) ∈ trace c ∧
                  extract_article_data (L:=Scenario.lib) now (url a) s = Ok a.
Proof.
  destruct flaky_run as (c & Hrun & _ & a & Ha). exists c, a. split; [exact Hrun|].
  exact (crawl_records_from_pages (L:=Scenario.lib) Scenario.flaky
           _ _ _ _ _ _ 0 a Hrun Ha).
Defined.

Lemma crawl_never_creates_file_witness :
  ∃ c, crawl (L:=Scenario.lib) Scenario.flaky 4 (init [Scenario.home] 10 None)
       = Some (c, None) ∧
       articles_file c = None ∧ ∃ t, trace c = t ++ [SaveJson; LogSaveError].
Proof.
  destruct flaky_run as (c & Hrun & _). exists c. split; [exact Hrun|].
  exact (crawl_never_creates_file (L:=Scenario.lib) Scenario.flaky _ _ _ _ _ Hrun).
Defined.


Lemma crawl_nothing_to_do_witness :
  crawl (L:=Scenario.lib) Scenario.flaky 0 (init [] 10 None)
  = Some (save_json (init [] 10 None), None).
Proof.
  apply (crawl_nothing_to_do (L:=Scenario.lib) Scenario.flaky [] 10 None 0).
  left. reflexivity.
Defined.
